(** * objmodel: document model of the Elasticsearch exporter

    A shallow embedding of
    [exporter/elasticsearchexporter/internal/objmodel/objmodel.go]:
    the [Value]/[Document] data model, the attribute importer, the
    [Sort]/[Dedup] normaliser and the streaming JSON serialiser, together
    with the properties of the specification that are checked against it. *)

From Stdlib Require Import ZArith String Ascii Bool SpecFloat OrdersEx Sorted.
From stdpp Require Import base tactics option list strings.

Local Open Scope string_scope.
Local Open Scope list_scope.
Local Open Scope Z_scope.

(** ** The parts of Go's [math] package that the serialiser calls *)

Module GoMath.

(** A [float64] is an IEEE-754 binary64 datum. *)
Definition float64 : Type := spec_float.

Definition prec : Z := 53.
Definition emax : Z := 1024.

(** The data that are binary64 values: mantissa in canonical position,
    exponent in range. *)
Definition is_float64 (f : float64) : bool := valid_binary prec emax f.

(** [math.MaxFloat64] = (2^53 - 1) * 2^971. *)
Definition MaxFloat64 : float64 := S754_finite false 9007199254740991 971.

(** [func IsNaN(f float64) (is bool) { return f != f }] *)
Definition IsNaN (f : float64) : bool := negb (SFeqb f f).

(** [func IsInf(f float64, sign int) bool {
       return sign >= 0 && f > MaxFloat64 || sign <= 0 && f < -MaxFloat64 }] *)
Definition IsInf (f : float64) (sign : Z) : bool :=
  (sign >=? 0) && SFltb MaxFloat64 f || (sign <=? 0) && SFltb f (SFopp MaxFloat64).

End GoMath.

(** ** The instants and the layout-driven formatter of Go's [time] package *)

Module GoTime.

(** A [time.Time] as an instant: seconds since the Unix epoch and the
    nanoseconds within that second.  The location is left out: the
    serialiser formats [t.UTC()] only. *)
Record Time : Type := mkTime { unixSec : Z; nsec : Z }.

(** The instants a [time.Time] can hold: the nanoseconds are always
    normalised into one second. *)
Definition wf (t : Time) : Prop := 0 <= nsec t < 1000000000.

(** [t.UTC()] changes the location only. *)
Definition UTC (t : Time) : Time := t.

Definition secondsPerDay : Z := 86400.
Definition daysPer400Years : Z := 365 * 400 + 97.
Definition daysPer100Years : Z := 365 * 100 + 24.
Definition daysPer4Years : Z := 365 * 4 + 1.

Definition absoluteZeroYear : Z := -292277022399.
Definition internalYear : Z := 1.
(** [(absoluteZeroYear - internalYear) * 365.2425 * secondsPerDay] *)
Definition absoluteToInternal : Z := (absoluteZeroYear - internalYear) * 31556952.
Definition internalToAbsolute : Z := - absoluteToInternal.
Definition unixToInternal : Z :=
  (1969 * 365 + 1969 / 4 - 1969 / 100 + 1969 / 400) * secondsPerDay.

(** The zero [time.Time]: January 1, year 1, 00:00:00 UTC. *)
Definition zeroTime : Time := mkTime (- unixToInternal) 0.

(** [t.abs()] for a time in UTC: seconds since the absolute zero year,
    as a [uint64]. *)
Definition abs (t : Time) : Z :=
  (unixSec t + (unixToInternal + internalToAbsolute)) mod 2 ^ 64.

Definition daysBefore : list Z :=
  [0; 31; 31 + 28; 31 + 28 + 31; 31 + 28 + 31 + 30; 31 + 28 + 31 + 30 + 31;
   31 + 28 + 31 + 30 + 31 + 30; 31 + 28 + 31 + 30 + 31 + 30 + 31;
   31 + 28 + 31 + 30 + 31 + 30 + 31 + 31;
   31 + 28 + 31 + 30 + 31 + 30 + 31 + 31 + 30;
   31 + 28 + 31 + 30 + 31 + 30 + 31 + 31 + 30 + 31;
   31 + 28 + 31 + 30 + 31 + 30 + 31 + 31 + 30 + 31 + 30;
   31 + 28 + 31 + 30 + 31 + 30 + 31 + 31 + 30 + 31 + 30 + 31].

(** [year%4 == 0 && (year%100 != 0 || year%400 == 0)]; Go's [%]
    truncates towards zero. *)
Definition isLeap (year : Z) : bool :=
  (Z.rem year 4 =? 0) && (negb (Z.rem year 100 =? 0) || (Z.rem year 400 =? 0)).

(** [absDate(abs, false)], the part of [absDate] before [if !full]:
    the year and the day of the year, from zero. *)
Definition absYday (abs : Z) : Z * Z :=
  let d := abs / secondsPerDay in
  (* 400 year cycles *)
  let n := d / daysPer400Years in
  let y := 400 * n in
  let d := d - daysPer400Years * n in
  (* 100 year cycles; the last day of the fourth belongs to it *)
  let n := d / daysPer100Years in
  let n := n - Z.shiftr n 2 in
  let y := y + 100 * n in
  let d := d - daysPer100Years * n in
  (* 4 year cycles *)
  let n := d / daysPer4Years in
  let y := y + 4 * n in
  let d := d - daysPer4Years * n in
  (* years within a 4 year cycle; the last day of the fourth belongs to it *)
  let n := d / 365 in
  let n := n - Z.shiftr n 2 in
  let y := y + n in
  let d := d - 365 * n in
  let year := y + absoluteZeroYear in
  let yday := d in
  (year, yday).

(** The rest of [absDate(abs, true)]: month and day of the month. *)
Definition monthDay (year yday : Z) : Z * Z :=
  let day := yday in
  if isLeap year && (day =? 31 + 29 - 1) then (2, 29)
  else
    let day := if isLeap year && (day >? 31 + 29 - 1) then day - 1 else day in
    (* the estimate assumes 31 days a month and may be one too low *)
    let month := day / 31 in
    let end_ := nth (Z.to_nat (month + 1)) daysBefore 0 in
    let '(month, begin) :=
      if day >=? end_ then (month + 1, end_)
      else (month, nth (Z.to_nat month) daysBefore 0) in
    let month := month + 1 in
    let day := day - begin + 1 in
    (month, day).

(** [absDate(abs, true)]: year, month, day of the month, day of the year. *)
Definition absDate (abs : Z) : Z * Z * Z * Z :=
  let '(year, yday) := absYday abs in
  let '(month, day) := monthDay year yday in
  (year, month, day, yday).

(** [absClock(abs)]: hour, minute, second. *)
Definition absClock (abs : Z) : Z * Z * Z :=
  let sec := abs mod secondsPerDay in
  let hour := sec / 3600 in
  let sec := sec - hour * 3600 in
  let min := sec / 60 in
  let sec := sec - min * 60 in
  (hour, min, sec).

(** [byte('0' + u)] *)
Definition digit (u : Z) : ascii := ascii_of_N (Z.to_N (48 + u)).

(** The loop of [appendInt] that assembles the decimal digits of [u]
    from the right of its 20 byte buffer, and the final digit; [acc]
    is the filled part of the buffer. *)
Fixpoint decimal (room : nat) (u : Z) (acc : list ascii) : list ascii :=
  match room with
  | O => acc
  | S room' =>
      if u >=? 10 then
        let q := u / 10 in
        decimal room' q (digit (u - q * 10) :: acc)
      else digit u :: acc
  end.

(** [appendInt(b, x, width)]: [x] in decimal, zero-padded to [width],
    with a sign when negative. *)
Definition appendInt (b : list ascii) (x : Z) (width : nat) : list ascii :=
  let u := x in
  let '(b, u) := if x <? 0 then (b ++ ["-"%char], - x) else (b, u) in
  let buf := decimal 20 u [] in
  b ++ repeat "0"%char (width - length buf) ++ buf.

(** The loop of [formatNano] that fills its 9 byte buffer from the right. *)
Fixpoint nanoDigits (k : nat) (u : Z) (acc : list ascii) : list ascii :=
  match k with
  | O => acc
  | S k' => nanoDigits k' (u / 10) (digit (u mod 10) :: acc)
  end.

(** [formatNano(b, nanosec, n, false)] *)
Definition formatNano (b : list ascii) (nanosec : Z) (n : nat) : list ascii :=
  let buf := nanoDigits 9 nanosec [] in
  let n := if (9 <? n)%nat then 9%nat else n in
  b ++ ["."%char] ++ take n buf.

(** The pieces [nextStdChunk] cuts a layout into: literal text and the
    reference-time elements. *)
Inductive chunk : Type :=
| literal (s : list ascii)
| stdLongYear
| stdZeroMonth
| stdZeroDay
| stdHour
| stdZeroMinute
| stdZeroSecond
| stdFracSecond0 (digits : nat).

(** [t.AppendFormat(b, layout)] over the pieces of the layout. *)
Definition appendChunk (t : Time) (b : list ascii) (c : chunk) : list ascii :=
  let '(year, month, day, _) := absDate (abs t) in
  let '(hour, min, sec) := absClock (abs t) in
  match c with
  | literal s => b ++ s
  | stdLongYear => appendInt b year 4
  | stdZeroMonth => appendInt b month 2
  | stdZeroDay => appendInt b day 2
  | stdHour => appendInt b hour 2
  | stdZeroMinute => appendInt b min 2
  | stdZeroSecond => appendInt b sec 2
  | stdFracSecond0 n => formatNano b (nsec t) n
  end.

Definition Format (t : Time) (layout : list chunk) : string :=
  string_of_list_ascii (fold_left (appendChunk t) layout []).

(** [t.Year()], ..., [t.Second()] for a time in UTC. *)
Definition Year (t : Time) : Z := fst (absYday (abs t)).
Definition Month (t : Time) : Z := snd (fst (fst (absDate (abs t)))).
Definition Day (t : Time) : Z := snd (fst (absDate (abs t))).
Definition Hour (t : Time) : Z := fst (fst (absClock (abs t))).
Definition Minute (t : Time) : Z := snd (fst (absClock (abs t))).
Definition Second (t : Time) : Z := snd (absClock (abs t)).

(** [time.Unix(0, nsec)]: [nsec] nanoseconds since the Unix epoch, the
    nanoseconds normalised into [0, 1e9). *)
Definition Unix0 (ns : Z) : Time :=
  mkTime (ns / 1000000000) (ns mod 1000000000).

End GoTime.

(** ** The event sink: [structform]'s visitor, as driven by the serialiser *)

Module structform.

(** One call on the [*json.Visitor]. *)
Inductive Event : Type :=
| OnObjectStart
| OnObjectFinished
| OnArrayStart
| OnArrayFinished
| OnKey (s : string)
| OnNil
| OnBool (b : bool)
| OnInt64 (i : Z)
| OnFloat64 (f : GoMath.float64)
| OnString (s : string).

(** A Go [error]: either made by [errors.New], or reported by the sink. *)
Inductive error : Type :=
| errorsNew (msg : string)
| sinkError (code : nat).

(** The sink is deterministic: whether a call fails is a function of the
    calls made so far and of the call itself. *)
Definition Visitor : Type := list Event -> Event -> option error.

(** The state threaded through a serialisation: the calls made so far,
    oldest first. *)
Definition Trace : Type := list Event.

(** Make one call on the visitor: the call is recorded, its error (or
    [None] for Go's [nil]) is returned. *)
Definition call (w : Visitor) (e : Event) (h : Trace) : Trace * option error :=
  (h ++ [e], w h e).

(** A sink that never fails. *)
Definition okVisitor : Visitor := fun _ _ => None.

(** A sink that fails, with code [c], exactly on the calls that [p] selects. *)
Definition failOn (p : Event -> bool) (c : nat) : Visitor :=
  fun _ e => if p e then Some (sinkError c) else None.

End structform.

Import GoMath GoTime structform.

(** ** Data model *)

Inductive Kind : Type :=
| KindNil
| KindBool
| KindInt
| KindDouble
| KindString
| KindArr
| KindObject
| KindTimestamp
| KindIgnore.

Global Instance Kind_eq_dec : EqDecision Kind.
Proof. solve_decision. Defined.

(** [type field struct { key string; value Value }], with the value type
    left open so that [Value] can nest it. *)
Record field_of (V : Type) : Type := mkField { key : string; value : V }.
Arguments mkField {V} _ _.
Arguments key {V} _.
Arguments value {V} _.

(** [type Document struct { fields []field }] *)
Record Document_of (V : Type) : Type := mkDocument { fields : list (field_of V) }.
Arguments mkDocument {V} _.
Arguments fields {V} _.

#[local] Unset Elimination Schemes.

(** [type Value struct { kind; primitive; dbl; str; arr; doc; ts }]: as in
    the source every payload is present in every value, and [kind] says
    which one is meant.  Its induction principle is [Value_ind] below. *)
Inductive Value : Type :=
  mkValue (kind : Kind) (primitive : Z) (dbl : float64) (str : string)
          (arr : list Value) (doc : Document_of Value) (ts : Time).

#[local] Set Elimination Schemes.

Abbreviation field := (field_of Value).
Abbreviation Document := (Document_of Value).

Definition kind (v : Value) : Kind := let (k, _, _, _, _, _, _) := v in k.
Definition primitive (v : Value) : Z := let (_, p, _, _, _, _, _) := v in p.
Definition dbl (v : Value) : float64 := let (_, _, d, _, _, _, _) := v in d.
Definition str (v : Value) : string := let (_, _, _, s, _, _, _) := v in s.
Definition arr (v : Value) : list Value := let (_, _, _, _, a, _, _) := v in a.
Definition doc (v : Value) : Document := let (_, _, _, _, _, d, _) := v in d.
Definition ts (v : Value) : Time := let (_, _, _, _, _, _, t) := v in t.

(** Go's zero value of [Value]; a composite literal sets the named fields
    and leaves the others zero. *)
Definition zeroValue : Value :=
  mkValue KindNil 0 (S754_zero false) "" [] (mkDocument []) zeroTime.

Definition with_kind (k : Kind) (v : Value) : Value :=
  mkValue k (primitive v) (dbl v) (str v) (arr v) (doc v) (ts v).
Definition with_primitive (p : Z) (v : Value) : Value :=
  mkValue (kind v) p (dbl v) (str v) (arr v) (doc v) (ts v).
Definition with_dbl (d : float64) (v : Value) : Value :=
  mkValue (kind v) (primitive v) d (str v) (arr v) (doc v) (ts v).
Definition with_str (s : string) (v : Value) : Value :=
  mkValue (kind v) (primitive v) (dbl v) s (arr v) (doc v) (ts v).
Definition with_arr (a : list Value) (v : Value) : Value :=
  mkValue (kind v) (primitive v) (dbl v) (str v) a (doc v) (ts v).
Definition with_doc (d : Document) (v : Value) : Value :=
  mkValue (kind v) (primitive v) (dbl v) (str v) (arr v) d (ts v).
Definition with_ts (t : Time) (v : Value) : Value :=
  mkValue (kind v) (primitive v) (dbl v) (str v) (arr v) (doc v) t.

Definition nilValue : Value := with_kind KindNil zeroValue.
Definition ignoreValue : Value := with_kind KindIgnore zeroValue.

(** *** 64-bit integers *)

(** The conversion [uint64(i)] of an [int64]. *)
Definition uint64 (i : Z) : Z := i mod 2 ^ 64.

(** The conversion [int64(u)] of a [uint64]. *)
Definition int64 (u : Z) : Z := if u <? 2 ^ 63 then u else u - 2 ^ 64.

(** *** Constructors *)

Definition StringValue (s : string) : Value :=
  with_str s (with_kind KindString zeroValue).

Definition IntValue (i : Z) : Value :=
  with_primitive (uint64 i) (with_kind KindInt zeroValue).

Definition DoubleValue (d : float64) : Value :=
  with_dbl d (with_kind KindDouble zeroValue).

Definition BoolValue (b : bool) : Value :=
  let v := 0 in
  let v := if b then 1 else v in
  with_primitive v (with_kind KindBool zeroValue).

Definition ArrValue (values : list Value) : Value :=
  with_arr values (with_kind KindArr zeroValue).

Definition TimestampValue (t : Time) : Value :=
  with_ts t (with_kind KindTimestamp zeroValue).

Definition ObjectValue (sub : Document) : Value :=
  with_doc sub (with_kind KindObject zeroValue).

(** [const tsLayout = "2006-01-02T15:04:05.000000000Z"], cut into the
    pieces the formatter sees: the final ['Z'] is followed by no zone
    digits and so is literal text. *)
Definition tsLayout : list chunk :=
  [stdLongYear; literal ["-"%char]; stdZeroMonth; literal ["-"%char]; stdZeroDay;
   literal ["T"%char]; stdHour; literal [":"%char]; stdZeroMinute;
   literal [":"%char]; stdZeroSecond; stdFracSecond0 9; literal ["Z"%char]].

(** ** Attribute importer *)

Module pdata.

#[local] Unset Elimination Schemes.

(** Modelled from the spec: the attribute values of the collector's
    [pdata] package, which the importer reads and which is no part of
    this source: "an ordered collection of (key, typed value) pairs,
    where typed value is one of null, bool, int64, float64, string,
    array-of-typed-value, nested attribute record". *)
Inductive AttributeValue : Type :=
| AttributeValueNULL
| AttributeValueSTRING (s : string)
| AttributeValueINT (i : Z)
| AttributeValueDOUBLE (d : float64)
| AttributeValueBOOL (b : bool)
| AttributeValueMAP (m : list (string * AttributeValue))
| AttributeValueARRAY (a : list AttributeValue).

#[local] Set Elimination Schemes.

Definition AttributeMap : Type := list (string * AttributeValue).

(** [am.ForEach(f)] visits the pairs in their order. *)
Definition ForEach {S : Type} (am : AttributeMap)
    (f : string -> AttributeValue -> S -> S) (s : S) : S :=
  fold_left (fun s kv => f (fst kv) (snd kv) s) am s.

(** A [pdata.Timestamp]: nanoseconds since the Unix epoch, a [uint64];
    [ts.AsTime()] is [time.Unix(0, int64(ts)).UTC()]. *)
Definition Timestamp : Type := Z.

End pdata.

Import pdata.

Definition flattenKey (path key : string) : string :=
  if String.eqb path "" then key else (path ++ "." ++ key)%string.

Section Importer.

(** The conversion of one attribute, [ValueFromAttribute], is what the
    walk below needs at the leaves. *)
Variable ValueFromAttribute : AttributeValue -> Value.

Fixpoint appendAttributeValue_rec (fields : list field) (path key : string)
    (attr : AttributeValue) {struct attr} : list field :=
  match attr with
  | AttributeValueNULL => fields
  | AttributeValueMAP m =>
      (* appendAttributeFields(fields, flattenKey(path, key), attr.MapVal()) *)
      (fix ForEach_loop (am : list (string * AttributeValue)) (fields : list field) :=
         match am with
         | [] => fields
         | kv :: am' =>
             ForEach_loop am'
               (appendAttributeValue_rec fields (flattenKey path key) (fst kv) (snd kv))
         end) m fields
  | _ =>
      fields ++ [mkField (flattenKey path key) (ValueFromAttribute attr)]
  end.

Definition appendAttributeFields_rec (fields : list field) (path : string)
    (am : AttributeMap) : list field :=
  ForEach am (fun k val fields => appendAttributeValue_rec fields path k val) fields.

Definition DocumentFromAttributesWithPath_rec (path : string) (am : AttributeMap)
    : Document :=
  if (length am =? 0)%nat then mkDocument []
  else mkDocument (appendAttributeFields_rec [] path am).

End Importer.

Fixpoint ValueFromAttribute (attr : AttributeValue) {struct attr} : Value :=
  match attr with
  | AttributeValueINT i => IntValue i
  | AttributeValueDOUBLE d => DoubleValue d
  | AttributeValueSTRING s => StringValue s
  | AttributeValueBOOL b => BoolValue b
  | AttributeValueARRAY a =>
      (* arrFromAttributes *)
      let sub := if (length a =? 0)%nat then [] else map ValueFromAttribute a in
      ArrValue sub
  | AttributeValueMAP m =>
      let sub := DocumentFromAttributesWithPath_rec ValueFromAttribute "" m in
      ObjectValue sub
  | _ => nilValue
  end.

Definition arrFromAttributes (aa : list AttributeValue) : list Value :=
  if (length aa =? 0)%nat then [] else map ValueFromAttribute aa.

Definition appendAttributeValue : list field -> string -> string -> AttributeValue -> list field :=
  appendAttributeValue_rec ValueFromAttribute.

Definition appendAttributeFields (fields : list field) (path : string)
    (am : AttributeMap) : list field :=
  ForEach am (fun k val fields => appendAttributeValue fields path k val) fields.

Definition DocumentFromAttributesWithPath (path : string) (am : AttributeMap)
    : Document :=
  if (length am =? 0)%nat then mkDocument []
  else
    let fields := [] in
    let fields := appendAttributeFields fields path am in
    mkDocument fields.

Definition DocumentFromAttributes (am : AttributeMap) : Document :=
  DocumentFromAttributesWithPath "" am.

(** *** The setters of a document under construction *)

Definition Document_Add (doc : Document) (key : string) (v : Value) : Document :=
  mkDocument (fields doc ++ [mkField key v]).

Definition Document_AddTimestamp (doc : Document) (key : string) (t : Timestamp)
    : Document :=
  Document_Add doc key (TimestampValue (UTC (Unix0 (int64 t)))).

Definition Document_AddString (doc : Document) (key : string) (v : string)
    : Document :=
  if negb (String.eqb v "") then Document_Add doc key (StringValue v) else doc.

(** [doc.AddID(key, id)], for an [id] with the methods [IsEmpty] and
    [HexString]. *)
Definition Document_AddID (doc : Document) (key : string)
    (IsEmpty : bool) (HexString : string) : Document :=
  if negb IsEmpty then Document_AddString doc key HexString else doc.

Definition Document_AddInt (doc : Document) (key : string) (value : Z) : Document :=
  Document_Add doc key (IntValue value).

Definition Document_AddAttributes (doc : Document) (key : string)
    (attributes : AttributeMap) : Document :=
  mkDocument (appendAttributeFields (fields doc) key attributes).

(** ** Normaliser *)

(** *** Sort *)

Section SliceStable.

Context {A : Type} (less : A -> A -> bool).

(** Put [x], which stood before all of the sorted [l], at its place:
    behind the elements that are less, before all others. *)
Fixpoint insert_stable (x : A) (l : list A) : list A :=
  match l with
  | [] => [x]
  | y :: l' => if less y x then y :: insert_stable x l' else x :: l
  end.

(** [sort.SliceStable(s, less)]: the one rearrangement of [s] that is
    ordered by [less] and keeps equal elements in their original order. *)
Definition SliceStable (s : list A) : list A := foldr insert_stable [] s.

End SliceStable.

(** [doc.fields[i].key < doc.fields[j].key]: byte-wise comparison. *)
Definition key_less (a b : field) : bool := String.ltb (key a) (key b).

(** [fld.value.m()] for a field: the value is replaced, the key stays. *)
Definition on_value (m : Value -> Value) (fld : field) : field :=
  mkField (key fld) (m (value fld)).

(** [v.Sort()].  The fields of a nested document are sorted as
    [Document_Sort] below does it, but their values are visited first:
    the sort looks at keys only, see [Value_Sort_eq]. *)
Fixpoint Value_Sort (v : Value) {struct v} : Value :=
  match v with
  | mkValue k p d s a dc t =>
      match k with
      | KindObject =>
          mkValue k p d s a
            (mkDocument (SliceStable key_less (map (on_value Value_Sort) (fields dc)))) t
      | KindArr => mkValue k p d s (map Value_Sort a) dc t
      | _ => v
      end
  end.

Definition Document_Sort (doc : Document) : Document :=
  let fields := SliceStable key_less (fields doc) in
  mkDocument (map (on_value Value_Sort) fields).

(** *** Dedup *)

(** [for i := from; i < from + count; i++ { s = body(i, s) }] *)
Fixpoint for_loop {S : Type} (from count : nat) (body : nat -> S -> S) (s : S) : S :=
  match count with
  | O => s
  | Datatypes.S count' => for_loop (Datatypes.S from) count' body (body from s)
  end.

(** [strings.HasPrefix(s, prefix)] *)
Definition HasPrefix (s prefix : string) : bool := String.prefix prefix s.

(** The body of the first loop of [Dedup]. *)
Definition Dedup_rename (i : nat) (fields : list field) : list field :=
  match fields !! i, fields !! (i + 1)%nat with
  | Some fi, Some fj =>
      if (String.length (key fi) <? String.length (key fj))%nat
         && HasPrefix (key fj) (key fi)
      then <[ i := mkField (key fi ++ ".value")%string (value fi) ]> fields
      else fields
  | _, _ => fields
  end.

(** The body of the second loop of [Dedup]. *)
Definition Dedup_mark (i : nat) (fields : list field) : list field :=
  match fields !! i, fields !! (i + 1)%nat with
  | Some fi, Some fj =>
      if String.eqb (key fi) (key fj)
      then <[ i := mkField (key fi) ignoreValue ]> fields
      else fields
  | _, _ => fields
  end.

(** The two loops over adjacent fields. *)
Definition Dedup_fields (fields : list field) : list field :=
  let fields := for_loop 0 (length fields - 1) Dedup_rename fields in
  let fields := for_loop 0 (length fields - 1) Dedup_mark fields in
  fields.

(** [v.Dedup()].  As for [Value_Sort] the values of a nested document are
    visited before its two loops run, which look at keys only and store
    [ignoreValue] only; see [Value_Dedup_eq]. *)
Fixpoint Value_Dedup (v : Value) {struct v} : Value :=
  match v with
  | mkValue k p d s a dc t =>
      match k with
      | KindObject =>
          mkValue k p d s a
            (mkDocument (Dedup_fields (map (on_value Value_Dedup) (fields dc)))) t
      | KindArr => mkValue k p d s (map Value_Dedup a) dc t
      | _ => v
      end
  end.

Definition Document_Dedup (doc : Document) : Document :=
  let fields := Dedup_fields (fields doc) in
  mkDocument (map (on_value Value_Dedup) fields).

(** ** Serialiser *)

Section Serializer.

Variable w : Visitor.

Section Flat.

Variable Value_iterJSON : Value -> bool -> Trace -> Trace * option error.

(** The test of [iterJSONFlat] that filters out empty values. *)
Definition isEmptyField (fld : field) : bool :=
  bool_decide (kind (value fld) = KindIgnore)
  || bool_decide (kind (value fld) = KindNil)
  || (bool_decide (kind (value fld) = KindArr)
      && (length (arr (value fld)) =? 0)%nat).

(** The loop of [iterJSONFlat]. *)
Fixpoint iterJSONFlat_fields (flds : list field) (h : Trace)
    : Trace * option error :=
  match flds with
  | [] => (h, None)
  | fld :: rest =>
      if isEmptyField fld then iterJSONFlat_fields rest h
      else
        let '(h, _) := call w (OnKey (key fld)) h in
        match Value_iterJSON (value fld) true h with
        | (h, Some err) => (h, Some err)
        | (h, None) => iterJSONFlat_fields rest h
        end
  end.

(** [doc.iterJSONFlat(w)]: the deferred [OnObjectFinished] runs on
    every way out. *)
Definition iterJSONFlat_rec (doc : Document) (h : Trace) : Trace * option error :=
  let '(h, _) := call w OnObjectStart h in
  let '(h, r) := iterJSONFlat_fields (fields doc) h in
  let '(h, _) := call w OnObjectFinished h in
  (h, r).

Definition iterJSONDedot (doc : Document) (h : Trace) : Trace * option error :=
  (h, Some (errorsNew "TODO")).

Definition iterJSON_rec (doc : Document) (dedot : bool) (h : Trace)
    : Trace * option error :=
  if dedot then iterJSONDedot doc h else iterJSONFlat_rec doc h.

(** The loop of [Value.iterJSON] over the elements of an array. *)
Fixpoint iterJSON_arr (a : list Value) (dedot : bool) (h : Trace)
    : Trace * option error :=
  match a with
  | [] => (h, None)
  | x :: rest =>
      match Value_iterJSON x dedot h with
      | (h, Some err) => (h, Some err)
      | (h, None) => iterJSON_arr rest dedot h
      end
  end.

End Flat.

(** [v.iterJSON(w, dedot)] *)
Fixpoint Value_iterJSON (v : Value) (dedot : bool) (h : Trace) {struct v}
    : Trace * option error :=
  match v with
  | mkValue k p d s a dc t =>
      match k with
      | KindNil => call w OnNil h
      | KindBool => call w (OnBool (p =? 1)) h
      | KindInt => call w (OnInt64 (int64 p)) h
      | KindDouble =>
          if IsNaN d || IsInf d 0 then call w OnNil h
          else call w (OnFloat64 d) h
      | KindString => call w (OnString s) h
      | KindTimestamp =>
          let str := Format (UTC t) tsLayout in
          call w (OnString str) h
      | KindObject =>
          if (length (fields dc) =? 0)%nat then call w OnNil h
          else iterJSON_rec Value_iterJSON dc dedot h
      | KindArr =>
          let '(h, _) := call w OnArrayStart h in
          match iterJSON_arr Value_iterJSON a dedot h with
          | (h, Some err) => (h, Some err)
          | (h, None) =>
              let '(h, _) := call w OnArrayFinished h in
              (h, None)
          end
      | KindIgnore => (h, None)
      end
  end.

Definition Document_iterJSONFlat : Document -> Trace -> Trace * option error :=
  iterJSONFlat_rec Value_iterJSON.

Definition Document_iterJSON (doc : Document) (dedot : bool) (h : Trace)
    : Trace * option error :=
  if dedot then iterJSONDedot doc h else Document_iterJSONFlat doc h.

(** [doc.Serialize(w, dedot)], on a fresh visitor. *)
Definition Document_Serialize (doc : Document) (dedot : bool) : Trace * option error :=
  Document_iterJSON doc dedot [].

End Serializer.

(** ** Notions used to state the properties *)

(** The test of the first loop of [Dedup] on two adjacent fields. *)
Definition collides (fi fj : field) : bool :=
  (String.length (key fi) <? String.length (key fj))%nat
  && HasPrefix (key fj) (key fi).

(** A loop of [Dedup] as one pass over the adjacent pairs: a step reads
    fields [i] and [i+1] and writes field [i] only, so every test sees
    its two fields as they were before the loop; see [for_loop_adjacent]. *)
Section Adjacent.

Context (test : field -> field -> bool) (upd : field -> field).

Fixpoint adjacent_pass (fields : list field) : list field :=
  match fields with
  | fi :: ((fj :: _) as rest) =>
      (if test fi fj then upd fi else fi) :: adjacent_pass rest
  | _ => fields
  end.

End Adjacent.

Definition rename_field (fi : field) : field :=
  mkField (key fi ++ ".value")%string (value fi).

Definition mark_field (fi : field) : field := mkField (key fi) ignoreValue.

Definition same_key (fi fj : field) : bool := String.eqb (key fi) (key fj).

(** The first loop of [Dedup]; see [Dedup_fields_passes]. *)
Definition rename_adjacent : list field -> list field :=
  adjacent_pass collides rename_field.

(** The second loop of [Dedup]. *)
Definition mark_adjacent : list field -> list field :=
  adjacent_pass same_key mark_field.

(** No field's key is a strictly shorter prefix of the next field's key:
    the first loop of [Dedup] has nothing to rename. *)
Fixpoint no_collision (fields : list field) : bool :=
  match fields with
  | fi :: ((fj :: _) as rest) => negb (collides fi fj) && no_collision rest
  | _ => true
  end.

(** [no_collision] in a value, at every depth that [Dedup] reaches. *)
Fixpoint Value_settled (v : Value) {struct v} : bool :=
  match v with
  | mkValue k p d s a dc t =>
      match k with
      | KindObject =>
          no_collision (fields dc)
          && forallb (fun fld => Value_settled (value fld)) (fields dc)
      | KindArr => forallb Value_settled a
      | _ => true
      end
  end.

Definition Document_settled (doc : Document) : bool :=
  no_collision (fields doc)
  && forallb (fun fld => Value_settled (value fld)) (fields doc).

(** The keys announced in a trace, in order. *)
Definition keysOf (evs : list Event) : list string :=
  omap (fun e => match e with OnKey k => Some k | _ => None end) evs.

(** The fields that the specification says flat output omits. *)
Definition omitted (v : Value) : Prop :=
  kind v = KindIgnore \/ kind v = KindNil \/ (kind v = KindArr /\ arr v = []).

Global Instance omitted_dec v : Decision (omitted v).
Proof. unfold omitted. destruct (arr v); apply _. Defined.

(** The data of a [float64] that are numbers. *)
Definition is_finite (f : float64) : bool :=
  match f with
  | S754_zero _ | S754_finite _ _ _ => true
  | S754_infinity _ | S754_nan => false
  end.

Definition isDigit (c : ascii) : bool :=
  (48 <=? N_of_ascii c)%N && (N_of_ascii c <=? 57)%N.

(** The number that a run of decimal digits writes. *)
Definition decimalValue (ds : list ascii) : Z :=
  fold_left (fun a c => 10 * a + (Z.of_N (N_of_ascii c) - 48)) ds 0.

(** A position of a fixed-width text: some digit, or one given character. *)
Inductive slot : Type :=
| D
| L (c : ascii).

Definition fits (p : slot) (c : ascii) : bool :=
  match p with
  | D => isDigit c
  | L c' => Ascii.eqb c c'
  end.

Fixpoint matches (pat : list slot) (s : list ascii) : bool :=
  match pat, s with
  | [], [] => true
  | p :: pat', c :: s' => fits p c && matches pat' s'
  | _, _ => false
  end.

(** The last eleven positions of the layout: [.nnnnnnnnnZ]. *)
Definition fracPattern : list slot :=
  [L "."; D; D; D; D; D; D; D; D; D; L "Z"]%char.

(** The layout [YYYY-MM-DDTHH:MM:SS.nnnnnnnnnZ], thirty positions. *)
Definition tsPattern : list slot :=
  [D; D; D; D; L "-"; D; D; L "-"; D; D; L "T"; D; D; L ":"; D; D; L ":"; D; D]%char
  ++ fracPattern.

Definition tsShape (s : string) : bool :=
  matches tsPattern (list_ascii_of_string s).

(** The end of a string of any length has the shape [.nnnnnnnnnZ]. *)
Definition fracShape (s : string) : bool :=
  let l := list_ascii_of_string s in
  matches fracPattern (drop (length l - 11) l).

(** ** Notions used to state further properties *)

(** Keys in ascending order: no field's key is less than the key of the
    field before it. *)
Fixpoint keys_ascending (fields : list field) : bool :=
  match fields with
  | fi :: ((fj :: _) as rest) =>
      negb (String.ltb (key fj) (key fi)) && keys_ascending rest
  | _ => true
  end.

(** [keys_ascending] in a value, at every depth that [Sort] reaches. *)
Fixpoint Value_sorted (v : Value) {struct v} : bool :=
  match v with
  | mkValue k p d s a dc t =>
      match k with
      | KindObject =>
          keys_ascending (fields dc)
          && forallb (fun fld => Value_sorted (value fld)) (fields dc)
      | KindArr => forallb Value_sorted a
      | _ => true
      end
  end.

Definition Document_sorted (doc : Document) : bool :=
  keys_ascending (fields doc)
  && forallb (fun fld => Value_sorted (value fld)) (fields doc).

(** The number of fields that importing an attribute gives: none for a
    null, those of its children for a map, one for anything else. *)
Fixpoint leaves (attr : AttributeValue) {struct attr} : nat :=
  match attr with
  | AttributeValueNULL => 0%nat
  | AttributeValueMAP m =>
      (fix leaves_of (m : list (string * AttributeValue)) : nat :=
         match m with
         | [] => 0%nat
         | kv :: m' => (leaves (snd kv) + leaves_of m')%nat
         end) m
  | _ => 1%nat
  end.

Definition leaves_of (am : AttributeMap) : nat :=
  sum_list_with (fun kv => leaves (snd kv)) am.

(** A value of kind [k0] occurs in [v]: [v] itself, or a value inside the
    array or the document that [v] holds according to its kind. *)
Fixpoint Value_mentions (k0 : Kind) (v : Value) {struct v} : bool :=
  match v with
  | mkValue k p d s a dc t =>
      bool_decide (k = k0)
      || match k with
         | KindObject => existsb (fun fld => Value_mentions k0 (value fld)) (fields dc)
         | KindArr => existsb (Value_mentions k0) a
         | _ => false
         end
  end.

(** The calls that hand a scalar to the sink. *)
Definition is_scalar (e : Event) : bool :=
  match e with
  | OnNil | OnBool _ | OnInt64 _ | OnFloat64 _ | OnString _ => true
  | _ => false
  end.

(** No object with fields, neither [v] itself nor inside its arrays. *)
Fixpoint Value_dedot_ok (v : Value) {struct v} : bool :=
  match v with
  | mkValue k p d s a dc t =>
      match k with
      | KindObject => (length (fields dc) =? 0)%nat
      | KindArr => forallb Value_dedot_ok a
      | _ => true
      end
  end.

(** Every field is omitted from flat output or holds no object with fields. *)
Definition Document_flat_ok (doc : Document) : bool :=
  forallb (fun fld => bool_decide (omitted (value fld)) || Value_dedot_ok (value fld))
    (fields doc).

(** The sequences of calls that write one JSON value, a run of values,
    and the members of an object. *)
Inductive json_value : list Event -> Prop :=
| json_nil : json_value [OnNil]
| json_bool (b : bool) : json_value [OnBool b]
| json_int (i : Z) : json_value [OnInt64 i]
| json_float (f : float64) : json_value [OnFloat64 f]
| json_string (s : string) : json_value [OnString s]
| json_array (evs : list Event) :
    json_values evs -> json_value (OnArrayStart :: evs ++ [OnArrayFinished])
| json_object (evs : list Event) :
    json_members evs -> json_value (OnObjectStart :: evs ++ [OnObjectFinished])
with json_values : list Event -> Prop :=
| json_values_nil : json_values []
| json_values_cons (v vs : list Event) :
    json_value v -> json_values vs -> json_values (v ++ vs)
with json_members : list Event -> Prop :=
| json_members_nil : json_members []
| json_members_cons (k : string) (v ms : list Event) :
    json_value v -> json_members ms -> json_members (OnKey k :: v ++ ms).

(** An error that [Serialize] can return: "TODO", or what the sink
    answered to a scalar. *)
Definition from_scalar_or_TODO (w : Visitor) (e : error) : Prop :=
  e = errorsNew "TODO"
  \/ exists h ev, is_scalar ev = true /\ w h ev = Some e.

(** The call that hands a scalar attribute to the sink. *)
Definition scalarEvent (attr : AttributeValue) : option Event :=
  match attr with
  | AttributeValueSTRING s => Some (OnString s)
  | AttributeValueINT i => Some (OnInt64 i)
  | AttributeValueDOUBLE d => Some (if is_finite d then OnFloat64 d else OnNil)
  | AttributeValueBOOL b => Some (OnBool b)
  | _ => None
  end.

(** A null or a scalar attribute that Go can hold: the integer an
    [int64], the double a binary64 datum. *)
Definition plain_attr (attr : AttributeValue) : bool :=
  match attr with
  | AttributeValueNULL | AttributeValueSTRING _ | AttributeValueBOOL _ => true
  | AttributeValueINT i => (- 2 ^ 63 <=? i) && (i <? 2 ^ 63)
  | AttributeValueDOUBLE d => is_float64 d
  | _ => false
  end.

(** The calls expected for one attribute of a record of scalars: its key
    and its value, or nothing for a null. *)
Definition pairEvents (kv : string * AttributeValue) : list Event :=
  match scalarEvent (snd kv) with
  | Some e => [OnKey (fst kv); e]
  | None => []
  end.

(** * Properties *)

(** ** Induction over values and attribute values *)

Lemma Value_ind (P : Value -> Prop) :
  (forall k p d s a dc t,
      Forall P a -> Forall (fun fld => P (value fld)) (fields dc) ->
      P (mkValue k p d s a dc t)) ->
  forall v, P v.
Proof.
  intros step. fix IH 1. intros [k p d s a dc t]. apply step.
  - induction a as [|x a IHa]; constructor; [apply IH | exact IHa].
  - destruct dc as [fs]. simpl.
    induction fs as [|[fk fv] fs IHfs]; constructor; [apply IH | exact IHfs].
Qed.

Lemma AttributeValue_ind (P : AttributeValue -> Prop) :
  P AttributeValueNULL ->
  (forall s, P (AttributeValueSTRING s)) ->
  (forall i, P (AttributeValueINT i)) ->
  (forall d, P (AttributeValueDOUBLE d)) ->
  (forall b, P (AttributeValueBOOL b)) ->
  (forall m, Forall (fun kv => P (snd kv)) m -> P (AttributeValueMAP m)) ->
  (forall a, Forall P a -> P (AttributeValueARRAY a)) ->
  forall attr, P attr.
Proof.
  intros HN HS HI HD HB HM HA. fix IH 1.
  intros [|s|i|d|b|m|a];
    [exact HN | apply HS | apply HI | apply HD | apply HB | | ].
  - apply HM. induction m as [|[k v] m IHm]; constructor; [apply IH | exact IHm].
  - apply HA. induction a as [|x a IHa]; constructor; [apply IH | exact IHa].
Qed.

(** ** Serialisation: the unfolding equations of the source functions *)

Section SerializerFacts.

Variable w : Visitor.

Lemma Value_iterJSON_Object sub dedot h :
  Value_iterJSON w (ObjectValue sub) dedot h =
  if (length (fields sub) =? 0)%nat then call w OnNil h
  else Document_iterJSON w sub dedot h.
Proof. reflexivity. Qed.

Lemma Value_iterJSON_Int i dedot h :
  Value_iterJSON w (IntValue i) dedot h = call w (OnInt64 (int64 (uint64 i))) h.
Proof. reflexivity. Qed.

End SerializerFacts.

(** ** Flat serialisation of nested documents *)

(** C1 (the code departs from the claim): in flat mode the loop over the
    fields hands every value on with [dedot = true], so a non-empty
    object below the top level, directly in a field or inside an array,
    reaches the unimplemented dedot branch: whatever the sink does, the
    serialisation stops with the error [TODO] and emits no nested object. *)
Theorem flat_nested_object_fails (w : Visitor) :
  let sub := mkDocument [mkField "b" (IntValue 1)] in
  Document_Serialize w (mkDocument [mkField "a" (ObjectValue sub)]) false
  = ([OnObjectStart; OnKey "a"; OnObjectFinished], Some (errorsNew "TODO"))
  /\ Document_Serialize w (mkDocument [mkField "a" (ArrValue [ObjectValue sub])]) false
  = ([OnObjectStart; OnKey "a"; OnArrayStart; OnObjectFinished],
     Some (errorsNew "TODO"))
  /\ Value_iterJSON w (ObjectValue sub) false []
  = Document_iterJSONFlat w sub [].
Proof. repeat split. Qed.

(** ** Integers through the unsigned payload *)

Lemma int64_uint64 (n : Z) : - 2 ^ 63 <= n < 2 ^ 63 -> int64 (uint64 n) = n.
Proof.
  intros Hn. unfold int64, uint64.
  destruct (Z.ltb_spec (n mod 2 ^ 64) (2 ^ 63)) as [Hlt | Hge];
    destruct (Z_lt_le_dec n 0) as [Hneg | Hpos].
  - rewrite <- (Z.mod_unique n (2 ^ 64) (-1) (n + 2 ^ 64)) in Hlt; lia.
  - apply Z.mod_small; lia.
  - rewrite <- (Z.mod_unique n (2 ^ 64) (-1) (n + 2 ^ 64)); lia.
  - rewrite Z.mod_small in Hge; lia.
Qed.

(** C10: an [int64] stored by [IntValue] as its [uint64] bit pattern is
    read back unchanged, negative or not, and flat serialisation hands
    exactly that integer to the sink. *)
Theorem IntValue_roundtrip (w : Visitor) (n : Z) (k : string) (dedot : bool)
    (h : Trace) :
  - 2 ^ 63 <= n < 2 ^ 63 ->
  primitive (IntValue n) = uint64 n
  /\ int64 (uint64 n) = n
  /\ Value_iterJSON w (IntValue n) dedot h = call w (OnInt64 n) h
  /\ Document_Serialize okVisitor (mkDocument [mkField k (IntValue n)]) false
     = ([OnObjectStart; OnKey k; OnInt64 n; OnObjectFinished], None).
Proof.
  intros Hn. pose proof (int64_uint64 n Hn) as Hrt. repeat split.
  - exact Hrt.
  - rewrite Value_iterJSON_Int, Hrt. reflexivity.
  - unfold Document_Serialize, Document_iterJSON, Document_iterJSONFlat,
      iterJSONFlat_rec.
    cbn [fields iterJSONFlat_fields isEmptyField value key call okVisitor].
    rewrite Value_iterJSON_Int, Hrt. reflexivity.
Qed.

Lemma IntValue_roundtrip_witness :
  - 2 ^ 63 <= - 2 ^ 63 < 2 ^ 63
  /\ Value_iterJSON okVisitor (IntValue (- 2 ^ 63)) false []
     = ([OnInt64 (- 2 ^ 63)], None).
Proof.
  split; [lia |].
  apply (IntValue_roundtrip okVisitor (- 2 ^ 63) "n" false []). lia.
Defined.

(** ** The importer *)

Lemma flattenKey_spec (path key : string) :
  flattenKey path key
  = if decide (path = "") then key else (path ++ "." ++ key)%string.
Proof.
  unfold flattenKey. destruct (String.eqb_spec path ""); case_decide; congruence.
Qed.

(** [ValueFromAttribute] on a map and on an array, as in the source. *)
Lemma ValueFromAttribute_MAP (m : AttributeMap) :
  ValueFromAttribute (AttributeValueMAP m) = ObjectValue (DocumentFromAttributes m).
Proof. reflexivity. Qed.

Lemma ValueFromAttribute_ARRAY (a : list AttributeValue) :
  ValueFromAttribute (AttributeValueARRAY a) = ArrValue (arrFromAttributes a).
Proof. reflexivity. Qed.

Lemma appendAttributeValue_MAP fields path key m :
  appendAttributeValue fields path key (AttributeValueMAP m)
  = appendAttributeFields fields (flattenKey path key) m.
Proof.
  unfold appendAttributeFields, ForEach, appendAttributeValue. simpl.
  revert fields. induction m as [|kv m IH]; intros fields; simpl; [reflexivity|].
  apply IH.
Qed.

Lemma ValueFromAttribute_leaf attr :
  (forall m, attr <> AttributeValueMAP m) ->
  kind (ValueFromAttribute attr) <> KindObject.
Proof.
  intros Hm. destruct attr as [|s|i|d|b|m|a]; simpl; try discriminate.
  destruct (Hm m eq_refl).
Qed.

Lemma appendAttributeValue_no_Object attr :
  forall fields path key,
    Forall (fun fld => kind (value fld) <> KindObject) fields ->
    Forall (fun fld => kind (value fld) <> KindObject)
      (appendAttributeValue fields path key attr).
Proof.
  induction attr as [|s|i|d|b|m IHm|a _] using AttributeValue_ind;
    intros fields path key Hf;
    try (apply Forall_app; split; [exact Hf |];
         constructor; [| constructor];
         apply ValueFromAttribute_leaf; discriminate).
  - exact Hf.
  - rewrite appendAttributeValue_MAP. unfold appendAttributeFields, ForEach.
    generalize (flattenKey path key) as p. intros p. revert fields Hf.
    induction IHm as [|kv m Hkv _ IH]; intros fields Hf; simpl; [exact Hf|].
    apply IH, Hkv, Hf.
Qed.

(** C9: a nested map is never stored as an Object field: importing it is
    importing its children under the extended path, no field of an
    imported document holds an Object, and the record
    [{"a": {"b": 1, "c": 2}}] yields the two leaf fields "a.b" and "a.c". *)
Theorem importer_flattens_maps :
  (forall fields path key m,
      appendAttributeValue fields path key (AttributeValueMAP m)
      = appendAttributeFields fields
          (if decide (path = "") then key else (path ++ "." ++ key)%string) m)
  /\ (forall path am,
      Forall (fun fld => kind (value fld) <> KindObject)
        (fields (DocumentFromAttributesWithPath path am)))
  /\ fields (DocumentFromAttributesWithPath ""
       [("a", AttributeValueMAP [("b", AttributeValueINT 1);
                                 ("c", AttributeValueINT 2)])])
     = [mkField "a.b" (IntValue 1); mkField "a.c" (IntValue 2)].
Proof.
  split; [| split].
  - intros fields path key m.
    rewrite appendAttributeValue_MAP, flattenKey_spec. reflexivity.
  - intros path am. unfold DocumentFromAttributesWithPath.
    destruct (length am =? 0)%nat; simpl; [constructor|].
    unfold appendAttributeFields, ForEach.
    assert (Hnil : Forall (fun fld : field => kind (value fld) <> KindObject) [])
      by constructor.
    revert Hnil. generalize (@nil field) as fields.
    induction am as [|kv am IH]; intros fields Hf; simpl; [exact Hf|].
    apply IH, appendAttributeValue_no_Object, Hf.
  - reflexivity.
Qed.

(** ** Doubles *)

Lemma digits2_pos_bound (m : positive) :
  Z.pos m < 2 ^ Z.pos (digits2_pos m).
Proof.
  induction m as [m IH | m IH |]; simpl digits2_pos.
  - rewrite Pos2Z.inj_succ, Z.pow_succ_r by lia. lia.
  - rewrite Pos2Z.inj_succ, Z.pow_succ_r by lia. lia.
  - reflexivity.
Qed.

(** A binary64 mantissa at the largest exponent is at most that of
    [MaxFloat64]. *)
Lemma bounded_top_mantissa (m : positive) :
  bounded prec emax m 971 = true -> (m <= 9007199254740991)%positive.
Proof.
  unfold bounded, canonical_mantissa, fexp, SpecFloat.emin, prec, emax.
  intros H. apply andb_true_iff in H as [H _]. apply Z.eqb_eq in H.
  assert (Hd : Z.pos (digits2_pos m) = 53) by lia.
  pose proof (digits2_pos_bound m) as Hm. rewrite Hd in Hm.
  assert (E : 2 ^ 53 = 9007199254740992) by (vm_compute; reflexivity).
  rewrite E in Hm.
  destruct (Pos.leb_spec m 9007199254740991) as [Hle | Hgt]; [exact Hle |].
  exfalso. apply Pos2Z.pos_lt_pos in Hgt. clear - Hm Hgt. lia.
Qed.

Lemma SFcompare_refl_finite (f : float64) :
  is_finite f = true -> SFcompare f f = Some Eq.
Proof.
  destruct f as [s | s | | s m e]; try discriminate; intros _; simpl.
  - reflexivity.
  - rewrite Z.compare_refl, Pos.compare_cont_refl. destruct s; reflexivity.
Qed.

Lemma IsNaN_finite (f : float64) : is_finite f = true -> IsNaN f = false.
Proof.
  intros Hf. unfold IsNaN, SFeqb. rewrite (SFcompare_refl_finite f Hf). reflexivity.
Qed.

Lemma IsInf_finite (f : float64) :
  is_float64 f = true -> is_finite f = true -> IsInf f 0 = false.
Proof.
  destruct f as [s | s | | s m e]; try discriminate; intros Hv _.
  - destruct s; reflexivity.
  - unfold is_float64 in Hv. simpl in Hv.
    assert (He : e <= 971).
    { unfold bounded in Hv. apply andb_true_iff in Hv as [_ Hv].
      apply Z.leb_le in Hv. exact Hv. }
    unfold IsInf. change (0 >=? 0) with true. change (0 <=? 0) with true.
    rewrite !andb_true_l.
    unfold SFltb, MaxFloat64, SFopp, SFcompare. destruct s; cbv beta iota.
    + (* negative: [f < -MaxFloat64] fails *)
      destruct (Z.compare_spec e 971) as [Heq | Hlt | Hgt]; [| reflexivity | lia].
      subst e. apply bounded_top_mantissa in Hv.
      rewrite Pos.compare_cont_spec. cbn [Pos.switch_Eq].
      destruct (Pos.compare_spec m 9007199254740991) as [? | ? | Hgt];
        [reflexivity | reflexivity | ].
      apply Pos.lt_nle in Hgt. contradiction.
    + (* positive: [f > MaxFloat64] fails *)
      destruct (Z.compare_spec 971 e) as [Heq | Hlt | Hgt]; [| lia | reflexivity].
      subst e. apply bounded_top_mantissa in Hv.
      rewrite Pos.compare_cont_spec. cbn [Pos.switch_Eq].
      destruct (Pos.compare_spec 9007199254740991 m) as [? | Hlt | ?];
        [reflexivity | | reflexivity].
      apply Pos.lt_nle in Hlt. contradiction.
Qed.

Lemma IsNaN_or_IsInf_nonfinite (f : float64) :
  is_finite f = false -> IsNaN f || IsInf f 0 = true.
Proof.
  destruct f as [s | s | | s m e]; try discriminate; intros _.
  - destruct s; reflexivity.
  - reflexivity.
Qed.

(** C8: a Double that is NaN, +Infinity or -Infinity is handed to the
    sink as null; every other binary64 value, the zeros and the finite
    numbers, is handed over as that number. *)
Theorem Double_nonfinite_is_null (w : Visitor) (d : float64) (dedot : bool)
    (h : Trace) :
  is_float64 d = true ->
  (d = S754_nan \/ d = S754_infinity false \/ d = S754_infinity true ->
   Value_iterJSON w (DoubleValue d) dedot h = call w OnNil h)
  /\ (is_finite d = true ->
      Value_iterJSON w (DoubleValue d) dedot h = call w (OnFloat64 d) h)
  /\ (is_finite d = false ->
      d = S754_nan \/ d = S754_infinity false \/ d = S754_infinity true).
Proof.
  intros Hv. split; [| split].
  - intros Hd. change (Value_iterJSON w (DoubleValue d) dedot h)
      with (if IsNaN d || IsInf d 0 then call w OnNil h else call w (OnFloat64 d) h).
    rewrite IsNaN_or_IsInf_nonfinite; [reflexivity|].
    destruct Hd as [-> | [-> | ->]]; reflexivity.
  - intros Hf. change (Value_iterJSON w (DoubleValue d) dedot h)
      with (if IsNaN d || IsInf d 0 then call w OnNil h else call w (OnFloat64 d) h).
    rewrite (IsNaN_finite d Hf), (IsInf_finite d Hv Hf). reflexivity.
  - destruct d as [s | [] | | s m e]; try discriminate; auto.
Qed.

Lemma Double_nonfinite_is_null_witness :
  Value_iterJSON okVisitor (DoubleValue S754_nan) false [] = ([OnNil], None)
  /\ Value_iterJSON okVisitor (DoubleValue (S754_infinity false)) false []
     = ([OnNil], None)
  /\ Value_iterJSON okVisitor (DoubleValue MaxFloat64) false []
     = ([OnFloat64 MaxFloat64], None).
Proof.
  split; [| split].
  - apply (Double_nonfinite_is_null okVisitor S754_nan false []);
      [reflexivity | left; reflexivity].
  - apply (Double_nonfinite_is_null okVisitor (S754_infinity false) false []);
      [reflexivity | right; left; reflexivity].
  - apply (Double_nonfinite_is_null okVisitor MaxFloat64 false []); reflexivity.
Defined.

(** ** The events of a flat serialisation *)

Section Traces.

Variable w : Visitor.

Lemma isEmptyField_omitted (fld : field) :
  isEmptyField fld = true <-> omitted (value fld).
Proof.
  unfold isEmptyField, omitted.
  rewrite !orb_true_iff, andb_true_iff, !bool_decide_eq_true, Nat.eqb_eq.
  destruct (arr (value fld)); simpl; intuition congruence.
Qed.

Lemma keysOf_app (evs1 evs2 : list Event) :
  keysOf (evs1 ++ evs2) = keysOf evs1 ++ keysOf evs2.
Proof. apply omap_app. Qed.

(** Under [dedot = true] no value announces a key: an object is either
    empty, and written as null, or refused. *)
Lemma Value_iterJSON_dedot_no_key (v : Value) :
  forall h h' r,
    Value_iterJSON w v true h = (h', r) ->
    exists evs, h' = h ++ evs /\ keysOf evs = [].
Proof.
  induction v as [k p d s a dc t IHa _] using Value_ind. intros h h' r.
  destruct k; simpl;
    try (intros [= <- _]; eexists [_]; split; reflexivity).
  - destruct (IsNaN d || IsInf d 0);
      intros [= <- _]; eexists [_]; split; reflexivity.
  - (* KindArr *)
    assert (Harr : forall h0 h1 r1,
               iterJSON_arr (Value_iterJSON w) a true h0 = (h1, r1) ->
               exists evs, h1 = h0 ++ evs /\ keysOf evs = []).
    { induction IHa as [|x a Hx _ IH]; intros h0 h1 r1; simpl.
      - intros [= <- _]. exists []. rewrite app_nil_r. split; reflexivity.
      - destruct (Value_iterJSON w x true h0) as [hx [ex|]] eqn:Ex;
          destruct (Hx _ _ _ Ex) as (evx & -> & Hkx).
        + intros [= <- _]. exists evx. split; [reflexivity | exact Hkx].
        + intros Hrest. destruct (IH _ _ _ Hrest) as (evr & -> & Hkr).
          exists (evx ++ evr). rewrite app_assoc, keysOf_app, Hkx, Hkr.
          split; reflexivity. }
    destruct (iterJSON_arr (Value_iterJSON w) a true (h ++ [OnArrayStart]))
      as [h1 [e1|]] eqn:Ea; destruct (Harr _ _ _ Ea) as (evs & -> & Hk);
      intros [= <- _].
    + exists (OnArrayStart :: evs). rewrite <- app_assoc. split; [reflexivity|].
      exact Hk.
    + exists (OnArrayStart :: evs ++ [OnArrayFinished]).
      rewrite <- !app_assoc. split; [reflexivity|].
      change (keysOf (evs ++ [OnArrayFinished]) = []).
      rewrite keysOf_app, Hk. reflexivity.
  - (* KindObject *)
    destruct (length (fields dc) =? 0)%nat.
    + intros [= <- _]; eexists [_]; split; reflexivity.
    + intros [= <- _]. exists []. rewrite app_nil_r. split; reflexivity.
  - intros [= <- _]. exists []. rewrite app_nil_r. split; reflexivity.
Qed.

(** The loop of [iterJSONFlat]: the keys it announces are those of the
    fields it got to that are not omitted. *)
Lemma iterJSONFlat_fields_keys (flds : list field) :
  forall h h' r,
    iterJSONFlat_fields w (Value_iterJSON w) flds h = (h', r) ->
    exists evs done rest,
      h' = h ++ evs
      /\ flds = done ++ rest
      /\ keysOf evs = key <$> filter (fun fld => ~ omitted (value fld)) done
      /\ (r = None -> rest = []).
Proof.
  induction flds as [|fld flds IH]; intros h h' r; simpl.
  - intros [= <- <-]. exists [], [], []. rewrite app_nil_r. auto.
  - destruct (isEmptyField fld) eqn:Eempty.
    + apply isEmptyField_omitted in Eempty. intros Hrest.
      destruct (IH _ _ _ Hrest) as (evs & done & rest & -> & -> & Hk & Hr).
      exists evs, (fld :: done), rest. repeat split; [| exact Hr].
      rewrite filter_cons_False by tauto. exact Hk.
    + assert (Hkeep : ~ omitted (value fld)).
      { rewrite <- isEmptyField_omitted, Eempty. discriminate. }
      destruct (Value_iterJSON w (value fld) true (h ++ [OnKey (key fld)]))
        as [h1 [e1|]] eqn:Ev;
        destruct (Value_iterJSON_dedot_no_key _ _ _ _ Ev) as (evv & -> & Hkv).
      * intros [= <- <-]. exists (OnKey (key fld) :: evv), [fld], flds.
        rewrite <- app_assoc. repeat split; [| discriminate].
        rewrite filter_cons_True by exact Hkeep.
        change (key fld :: keysOf evv = [key fld]). rewrite Hkv. reflexivity.
      * intros Hrest.
        destruct (IH _ _ _ Hrest) as (evs & done & rest & -> & -> & Hk & Hr).
        exists (OnKey (key fld) :: evv ++ evs), (fld :: done), rest.
        rewrite <- !app_assoc. repeat split; [| exact Hr].
        rewrite filter_cons_True by exact Hkeep.
        change (key fld :: keysOf (evv ++ evs) = key fld :: (key <$> filter (fun fld => ~ omitted (value fld)) done)).
        rewrite keysOf_app, Hkv, Hk. reflexivity.
Qed.

(** Where the loop of [iterJSONFlat] stops with an error: at the value
    of a field that is not omitted, with the trace of that value. *)
Lemma iterJSONFlat_fields_error (flds : list field) :
  forall h h' e,
    iterJSONFlat_fields w (Value_iterJSON w) flds h = (h', Some e) ->
    exists pre fld post h0,
      flds = pre ++ fld :: post
      /\ ~ omitted (value fld)
      /\ iterJSONFlat_fields w (Value_iterJSON w) pre h = (h0, None)
      /\ Value_iterJSON w (value fld) true (h0 ++ [OnKey (key fld)])
         = (h', Some e).
Proof.
  induction flds as [|fld flds IH]; intros h h' e; simpl; [discriminate|].
  destruct (isEmptyField fld) eqn:Eempty.
  - intros Hrest.
    destruct (IH _ _ _ Hrest) as (pre & f & post & h0 & -> & Hf & Hpre & Hv).
    exists (fld :: pre), f, post, h0. repeat split; try assumption.
    simpl. rewrite Eempty. exact Hpre.
  - assert (Hkeep : ~ omitted (value fld)).
    { rewrite <- isEmptyField_omitted, Eempty. discriminate. }
    destruct (Value_iterJSON w (value fld) true (h ++ [OnKey (key fld)]))
      as [h1 [e1|]] eqn:Ev.
    + intros [= <- <-]. exists [], fld, flds, h. repeat split; assumption.
    + intros Hrest.
      destruct (IH _ _ _ Hrest) as (pre & f & post & h0 & -> & Hf & Hpre & Hv).
      exists (fld :: pre), f, post, h0. repeat split; try assumption.
      simpl. rewrite Eempty, Ev. exact Hpre.
Qed.

(** Where the loop over the elements of an array stops with an error. *)
Lemma iterJSON_arr_error (a : list Value) (dedot : bool) :
  forall h h' e,
    iterJSON_arr (Value_iterJSON w) a dedot h = (h', Some e) ->
    exists pre x post h0,
      a = pre ++ x :: post
      /\ iterJSON_arr (Value_iterJSON w) pre dedot h = (h0, None)
      /\ Value_iterJSON w x dedot h0 = (h', Some e).
Proof.
  induction a as [|x a IH]; intros h h' e; simpl; [discriminate|].
  destruct (Value_iterJSON w x dedot h) as [h1 [e1|]] eqn:Ex.
  - intros [= <- <-]. exists [], x, a, h. repeat split. exact Ex.
  - intros Hrest.
    destruct (IH _ _ _ Hrest) as (pre & y & post & h0 & -> & Hpre & Hy).
    exists (x :: pre), y, post, h0. repeat split; try assumption.
    simpl. rewrite Ex. exact Hpre.
Qed.

End Traces.

(** C6: in the object that flat serialisation writes, the keys announced
    are, in order, those of the fields reached whose value is neither
    Ignore, nor Nil, nor an Array without elements, and these only (all
    fields are reached unless a value fails); and an Object without
    fields, wherever it is reached, is written as null in place. *)
Theorem flat_output_omits_empty_fields (w : Visitor) :
  (forall (d : Document) (h h' : Trace) (r : option error),
      Document_iterJSONFlat w d h = (h', r) ->
      exists evs done rest,
        h' = h ++ [OnObjectStart] ++ evs ++ [OnObjectFinished]
        /\ fields d = done ++ rest
        /\ keysOf evs = key <$> filter (fun fld => ~ omitted (value fld)) done
        /\ (r = None -> rest = []))
  /\ (forall (v : Value) (dedot : bool) (h : Trace),
      kind v = KindObject -> fields (doc v) = [] ->
      Value_iterJSON w v dedot h = (h ++ [OnNil], w h OnNil)).
Proof.
  split.
  - intros d h h' r. unfold Document_iterJSONFlat, iterJSONFlat_rec. simpl.
    destruct (iterJSONFlat_fields w (Value_iterJSON w) (fields d)
                (h ++ [OnObjectStart])) as [h1 r1] eqn:Ef.
    intros [= <- <-].
    destruct (iterJSONFlat_fields_keys w _ _ _ _ Ef)
      as (evs & done & rest & -> & Hd & Hk & Hr).
    exists evs, done, rest. rewrite <- !app_assoc. auto.
  - intros [k p d s a dc t] dedot h. simpl. intros -> ->. reflexivity.
Qed.

Lemma flat_output_omits_empty_fields_witness :
  let d := mkDocument
    [mkField "a" nilValue; mkField "b" ignoreValue; mkField "c" (ArrValue []);
     mkField "d" (ObjectValue (mkDocument [])); mkField "e" (IntValue 1)] in
  Document_iterJSONFlat okVisitor d []
  = ([OnObjectStart; OnKey "d"; OnNil; OnKey "e"; OnInt64 1; OnObjectFinished],
     None)
  /\ exists evs done rest,
      [OnObjectStart; OnKey "d"; OnNil; OnKey "e"; OnInt64 1; OnObjectFinished]
      = [] ++ [OnObjectStart] ++ evs ++ [OnObjectFinished]
      /\ fields d = done ++ rest
      /\ keysOf evs = key <$> filter (fun fld => ~ omitted (value fld)) done
      /\ (@None error = None -> rest = []).
Proof.
  intros d. split; [reflexivity |].
  apply (proj1 (flat_output_omits_empty_fields okVisitor) d [] _ None).
  reflexivity.
Defined.

(** ** Failures *)

(** C4, as it stands, fails: when the sink refuses the integer of the
    field "a", the value's serialisation stops with that error and the
    trace [h1]; [Serialize] returns the same error but its trace is one
    event longer, the close of the object opened before the failure. *)
Lemma close_object_follows_failure :
  let w := failOn (fun e => match e with OnInt64 _ => true | _ => false end) 7 in
  let d := mkDocument [mkField "a" (IntValue 1)] in
  let h1 := [OnObjectStart; OnKey "a"; OnInt64 1] in
  Value_iterJSON w (IntValue 1) true [OnObjectStart; OnKey "a"]
  = (h1, Some (sinkError 7))
  /\ Document_Serialize w d false = (h1 ++ [OnObjectFinished], Some (sinkError 7))
  /\ ~ (forall tr e, Document_Serialize w d false = (tr, Some e) ->
        last tr <> Some OnObjectFinished).
Proof.
  intros w d h1. split; [reflexivity | split; [reflexivity |]].
  intros Hclaim. apply (Hclaim (h1 ++ [OnObjectFinished]) (sinkError 7));
    reflexivity.
Qed.

(** C4, amended: a failure in the value of a field ends the serialisation
    with that very error; no later field is visited, and the only event
    after the failing value's own trace is the deferred close of the
    enclosing object.  A failure in an element of an array ends the array
    at once with that error: its trace is the element's, no later
    element is visited and the array is not closed. *)
Theorem failure_aborts_keeping_array_open (w : Visitor) :
  (forall (d : Document) (h' : Trace) (e : error),
      Document_Serialize w d false = (h', Some e) ->
      exists pre fld post h0 h1,
        fields d = pre ++ fld :: post
        /\ ~ omitted (value fld)
        /\ iterJSONFlat_fields w (Value_iterJSON w) pre [OnObjectStart] = (h0, None)
        /\ Value_iterJSON w (value fld) true (h0 ++ [OnKey (key fld)])
           = (h1, Some e)
        /\ h' = h1 ++ [OnObjectFinished])
  /\ (forall (v : Value) (dedot : bool) (h h' : Trace) (e : error),
      kind v = KindArr ->
      Value_iterJSON w v dedot h = (h', Some e) ->
      exists pre x post h0,
        arr v = pre ++ x :: post
        /\ iterJSON_arr (Value_iterJSON w) pre dedot (h ++ [OnArrayStart])
           = (h0, None)
        /\ Value_iterJSON w x dedot h0 = (h', Some e)).
Proof.
  split.
  - intros d h' e.
    unfold Document_Serialize, Document_iterJSON, Document_iterJSONFlat,
      iterJSONFlat_rec. simpl.
    destruct (iterJSONFlat_fields w (Value_iterJSON w) (fields d) [OnObjectStart])
      as [h1 r1] eqn:Ef.
    intros [= <- ->].
    destruct (iterJSONFlat_fields_error w _ _ _ _ Ef)
      as (pre & fld & post & h0 & Hd & Hk & Hpre & Hv).
    exists pre, fld, post, h0, h1. auto.
  - intros [k p d s a dc t] dedot h h' e. simpl. intros ->.
    destruct (iterJSON_arr (Value_iterJSON w) a dedot (h ++ [OnArrayStart]))
      as [h1 [e1|]] eqn:Ea; [| discriminate].
    intros [= <- <-]. apply (iterJSON_arr_error w _ _ _ _ _ Ea).
Qed.

Lemma failure_aborts_keeping_array_open_witness :
  let w := failOn (fun e => match e with OnInt64 2 => true | _ => false end) 7 in
  let v := ArrValue [IntValue 1; IntValue 2; IntValue 3] in
  Value_iterJSON w v false [] = ([OnArrayStart; OnInt64 1; OnInt64 2], Some (sinkError 7))
  /\ exists pre x post h0,
      arr v = pre ++ x :: post
      /\ iterJSON_arr (Value_iterJSON w) pre false ([] ++ [OnArrayStart])
         = (h0, None)
      /\ Value_iterJSON w x false h0
         = ([OnArrayStart; OnInt64 1; OnInt64 2], Some (sinkError 7)).
Proof.
  intros w v. split; [reflexivity |].
  apply (proj2 (failure_aborts_keeping_array_open w) v false [] _ (sinkError 7));
    reflexivity.
Defined.

(** ** Sort is a stable sort *)

Section SliceStableFacts.

Context {A : Type} (less : A -> A -> bool).

Hypothesis less_asym : forall a b, less a b = true -> less b a = false.
Hypothesis less_negtrans : forall a b c,
  less b a = false -> less c b = false -> less c a = false.

Lemma insert_stable_Permutation (x : A) (l : list A) :
  insert_stable less x l ≡ₚ x :: l.
Proof.
  induction l as [|y l IH]; [reflexivity|]. simpl.
  destruct (less y x); [| reflexivity].
  rewrite IH. apply Permutation_swap.
Qed.

Lemma SliceStable_Permutation (l : list A) : SliceStable less l ≡ₚ l.
Proof.
  unfold SliceStable. induction l as [|x l IH]; [reflexivity|]. simpl.
  rewrite insert_stable_Permutation, IH. reflexivity.
Qed.

(** No element of the result is less than one before it. *)
Lemma insert_stable_sorted (x : A) (l : list A) :
  StronglySorted (fun a b => less b a = false) l ->
  StronglySorted (fun a b => less b a = false) (insert_stable less x l).
Proof.
  induction 1 as [|y l Hl IH Hy]; simpl.
  - repeat constructor.
  - destruct (less y x) eqn:E.
    + constructor; [exact IH |].
      rewrite insert_stable_Permutation. constructor; [| exact Hy].
      apply less_asym, E.
    + constructor; [constructor; assumption |].
      constructor; [exact E |].
      eapply Forall_impl; [exact Hy |]. intros z Hz. cbv beta in *.
      apply (less_negtrans x y z); assumption.
Qed.

Lemma SliceStable_sorted (l : list A) :
  StronglySorted (fun a b => less b a = false) (SliceStable less l).
Proof.
  unfold SliceStable. induction l as [|x l IH]; simpl; [constructor|].
  apply insert_stable_sorted, IH.
Qed.

(** Elements that the order does not tell apart keep their order: the
    elements an element of the input is equivalent to come out in the
    order they came in. *)
Lemma insert_stable_filter (P : A -> Prop) `{!forall a, Decision (P a)}
    (x : A) (l : list A) :
  (forall y, P x -> P y -> less y x = false) ->
  filter P (insert_stable less x l) = filter P (x :: l).
Proof.
  intros Heq. induction l as [|y l IH]; [reflexivity|]. simpl.
  destruct (less y x) eqn:E; [| reflexivity].
  rewrite !filter_cons, IH, filter_cons.
  destruct (decide (P y)) as [Py|]; destruct (decide (P x)) as [Px|];
    try reflexivity.
  rewrite (Heq y Px Py) in E. discriminate.
Qed.

Lemma SliceStable_stable (P : A -> Prop) `{!forall a, Decision (P a)}
    (l : list A) :
  (forall x y, P x -> P y -> less y x = false) ->
  filter P (SliceStable less l) = filter P l.
Proof.
  intros Heq. unfold SliceStable. induction l as [|x l IH]; [reflexivity|].
  simpl. rewrite insert_stable_filter by (intros y; apply Heq).
  rewrite !filter_cons, IH. reflexivity.
Qed.

End SliceStableFacts.

Lemma String_compare_OT (a b : string) :
  String.compare a b = OrdersEx.String_as_OT.compare a b.
Proof.
  revert b. induction a as [|c a IH]; intros [|c' b]; reflexivity.
Qed.

Lemma String_ltb_lt (a b : string) :
  String.ltb a b = true <-> OrdersEx.String_as_OT.lt a b.
Proof.
  unfold String.ltb, OrdersEx.String_as_OT.lt. rewrite String_compare_OT.
  destruct (OrdersEx.String_as_OT.compare a b); split; congruence.
Qed.

Lemma key_less_asym (a b : field) : key_less a b = true -> key_less b a = false.
Proof.
  unfold key_less. intros H. apply String_ltb_lt in H.
  apply not_true_is_false. intros H'. apply String_ltb_lt in H'.
  apply (StrictOrder_Irreflexive (key a)).
  apply (StrictOrder_Transitive _ (key b)); assumption.
Qed.

Lemma key_less_negtrans (a b c : field) :
  key_less b a = false -> key_less c b = false -> key_less c a = false.
Proof.
  unfold key_less. intros Hba Hcb. apply not_true_is_false. intros Hca.
  apply String_ltb_lt in Hca.
  destruct (OrdersEx.String_as_OT.compare_spec (key a) (key b)) as [E | Hab | Hba'].
  - rewrite <- E in Hcb. apply String_ltb_lt in Hca. congruence.
  - assert (Hcb' : OrdersEx.String_as_OT.lt (key c) (key b))
      by (apply (StrictOrder_Transitive _ (key a)); assumption).
    apply String_ltb_lt in Hcb'. congruence.
  - apply String_ltb_lt in Hba'. congruence.
Qed.

(** [doc.Sort()] rearranges the fields, in ascending order of their keys,
    fields of one key in the order they had; the values are sorted inside. *)
Lemma Document_Sort_sorted (d : Document) :
  fields (Document_Sort d) = on_value Value_Sort <$> SliceStable key_less (fields d)
  /\ SliceStable key_less (fields d) ≡ₚ fields d
  /\ StronglySorted (fun a b => String.ltb (key b) (key a) = false)
       (fields (Document_Sort d))
  /\ forall k, filter (fun fld => key fld = k) (SliceStable key_less (fields d))
               = filter (fun fld => key fld = k) (fields d).
Proof.
  split; [reflexivity | split; [apply SliceStable_Permutation | split]].
  - unfold Document_Sort. cbn [fields].
    pose proof (SliceStable_sorted key_less key_less_asym key_less_negtrans (fields d)) as H.
    induction H as [|f l Hl IH Hf]; [constructor|].
    cbn [map]. constructor; [exact IH|].
    apply Forall_fmap. eapply Forall_impl; [exact Hf|]. intros g Hg. exact Hg.
  - intros k. apply SliceStable_stable. intros x y <- Hy. unfold key_less.
    rewrite Hy. apply not_true_is_false. intros H. apply String_ltb_lt in H.
    apply (StrictOrder_Irreflexive _ H).
Qed.

(** ** The loops of Dedup *)

Section AdjacentLoop.

Context (test : field -> field -> bool) (upd : field -> field).

(** A loop body of the shape of those of [Dedup]. *)
Variable body : nat -> list field -> list field.
Hypothesis body_eq : forall i fs,
  body i fs =
  match fs !! i, fs !! (i + 1)%nat with
  | Some fi, Some fj => if test fi fj then <[ i := upd fi ]> fs else fs
  | _, _ => fs
  end.

Lemma for_loop_adjacent_from (fs : list field) :
  forall done : list field,
    for_loop (length done) (length fs - 1) body (done ++ fs)
    = done ++ adjacent_pass test upd fs.
Proof.
  induction fs as [|fi fs IH]; intros done; [reflexivity|].
  destruct fs as [|fj fs]; [reflexivity|].
  replace (length (fi :: fj :: fs) - 1)%nat with (S (length (fj :: fs) - 1))
    by (simpl; lia).
  cbn [for_loop adjacent_pass]. rewrite body_eq.
  rewrite (list_lookup_middle done (fj :: fs) fi) by reflexivity.
  replace (done ++ fi :: fj :: fs) with ((done ++ [fi]) ++ fj :: fs)
    by (rewrite <- app_assoc; reflexivity).
  rewrite (list_lookup_middle (done ++ [fi]) fs fj)
    by (rewrite length_app; reflexivity).
  rewrite <- app_assoc. cbn [app].
  set (fi' := if test fi fj then upd fi else fi).
  assert (Hstep : (if test fi fj
                   then <[ length done := upd fi ]> (done ++ fi :: fj :: fs)
                   else done ++ fi :: fj :: fs)
                  = (done ++ [fi']) ++ fj :: fs).
  { subst fi'. rewrite <- app_assoc. cbn [app]. destruct (test fi fj); [|reflexivity].
    rewrite <- (Nat.add_0_r (length done)) at 1. rewrite insert_app_r. reflexivity. }
  rewrite Hstep. specialize (IH (done ++ [fi'])).
  rewrite length_app, Nat.add_1_r in IH. rewrite IH, <- app_assoc. reflexivity.
Qed.

(** The loop, run over all adjacent pairs, is the pass. *)
Lemma for_loop_adjacent (fs : list field) :
  for_loop 0 (length fs - 1) body fs = adjacent_pass test upd fs.
Proof. apply (for_loop_adjacent_from fs []). Qed.


Lemma adjacent_pass_lookup (fs : list field) :
  forall i,
    adjacent_pass test upd fs !! i =
    match fs !! i, fs !! (i + 1)%nat with
    | Some fi, Some fj => Some (if test fi fj then upd fi else fi)
    | r, _ => r
    end.
Proof.
  induction fs as [|fi [|fj fs] IH]; intros i.
  - reflexivity.
  - destruct i as [|[|i]]; reflexivity.
  - destruct i as [|i].
    + reflexivity.
    + cbn [adjacent_pass]. rewrite lookup_cons. cbn [Nat.add].
      rewrite IH. reflexivity.
Qed.

End AdjacentLoop.

Lemma Dedup_rename_loop (fs : list field) :
  for_loop 0 (length fs - 1) Dedup_rename fs = rename_adjacent fs.
Proof. apply for_loop_adjacent. reflexivity. Qed.

Lemma Dedup_mark_loop (fs : list field) :
  for_loop 0 (length fs - 1) Dedup_mark fs = mark_adjacent fs.
Proof. apply for_loop_adjacent. reflexivity. Qed.

(** The two loops of [Dedup] are the two passes, one after the other. *)
Lemma Dedup_fields_passes (fs : list field) :
  Dedup_fields fs = mark_adjacent (rename_adjacent fs).
Proof.
  unfold Dedup_fields. rewrite Dedup_rename_loop, Dedup_mark_loop. reflexivity.
Qed.

(** ** The first loop of Dedup *)

(** C2 (the code departs from the claim): the test of the first loop is
    [strings.HasPrefix], a plain string prefix: field [i] is renamed
    exactly when its key is strictly shorter than the next key and a
    prefix of it, whatever character follows the prefix.  The pair of the
    specification, "a" before "a.b", is renamed as claimed; but so is
    "ab" before "abc", where no path separator follows the prefix. *)
Theorem Dedup_renames_plain_prefix :
  (forall (fs : list field) (i : nat),
      for_loop 0 (length fs - 1) Dedup_rename fs !! i =
      match fs !! i, fs !! (i + 1)%nat with
      | Some fi, Some fj =>
          Some (if (String.length (key fi) <? String.length (key fj))%nat
                   && String.prefix (key fi) (key fj)
                then mkField (key fi ++ ".value")%string (value fi) else fi)
      | r, _ => r
      end)
  /\ fields (Document_Dedup (Document_Sort
       (mkDocument [mkField "a" (IntValue 1); mkField "a.b" (StringValue "x")])))
     = [mkField "a.value" (IntValue 1); mkField "a.b" (StringValue "x")]
  /\ fields (Document_Dedup (Document_Sort
       (mkDocument [mkField "ab" (IntValue 1); mkField "abc" (IntValue 2)])))
     = [mkField "ab.value" (IntValue 1); mkField "abc" (IntValue 2)].
Proof.
  split; [| split; reflexivity].
  intros fs i. rewrite Dedup_rename_loop. unfold rename_adjacent.
  rewrite adjacent_pass_lookup. reflexivity.
Qed.

(** The passes and the visit of the values: the passes read keys only,
    the first keeps every value, the second stores [ignoreValue] only. *)
Section PassesAndValues.

Variable m : Value -> Value.

Lemma rename_adjacent_on_value (fs : list field) :
  rename_adjacent (on_value m <$> fs) = on_value m <$> rename_adjacent fs.
Proof.
  unfold rename_adjacent.
  induction fs as [|fi [|fj fs] IH]; [reflexivity | reflexivity |].
  cbn [fmap list_fmap adjacent_pass] in *. rewrite IH.
  change (collides (on_value m fi) (on_value m fj)) with (collides fi fj).
  destruct (collides fi fj); reflexivity.
Qed.

Hypothesis m_ignore : m ignoreValue = ignoreValue.

Lemma mark_adjacent_on_value (fs : list field) :
  mark_adjacent (on_value m <$> fs) = on_value m <$> mark_adjacent fs.
Proof.
  unfold mark_adjacent.
  induction fs as [|fi [|fj fs] IH]; [reflexivity | reflexivity |].
  cbn [fmap list_fmap adjacent_pass] in *. rewrite IH.
  change (same_key (on_value m fi) (on_value m fj)) with (same_key fi fj).
  destruct (same_key fi fj); [| reflexivity].
  unfold on_value at 3, mark_field. cbn [key value]. rewrite m_ignore.
  reflexivity.
Qed.

Lemma Dedup_fields_on_value (fs : list field) :
  Dedup_fields (on_value m <$> fs) = on_value m <$> Dedup_fields fs.
Proof.
  rewrite !Dedup_fields_passes, rename_adjacent_on_value,
    mark_adjacent_on_value. reflexivity.
Qed.

Lemma insert_stable_on_value (x : field) (l : list field) :
  insert_stable key_less (on_value m x) (on_value m <$> l)
  = on_value m <$> insert_stable key_less x l.
Proof.
  induction l as [|y l IH]; [reflexivity|].
  cbn [fmap list_fmap insert_stable] in *.
  change (key_less (on_value m y) (on_value m x)) with (key_less y x).
  destruct (key_less y x); [| reflexivity].
  rewrite IH. reflexivity.
Qed.

Lemma SliceStable_on_value (l : list field) :
  SliceStable key_less (on_value m <$> l)
  = on_value m <$> SliceStable key_less l.
Proof.
  unfold SliceStable. induction l as [|x l IH]; [reflexivity|].
  cbn [fmap list_fmap foldr] in *. rewrite IH. apply insert_stable_on_value.
Qed.

End PassesAndValues.

(** [v.Sort()], as the source has it: on an object it is [v.doc.Sort()],
    on an array it visits the elements. *)
Lemma Value_Sort_eq (v : Value) :
  Value_Sort v =
  match kind v with
  | KindObject => with_doc (Document_Sort (doc v)) v
  | KindArr => with_arr (map Value_Sort (arr v)) v
  | _ => v
  end.
Proof.
  destruct v as [k p d s a dc t]. destruct k; try reflexivity.
  unfold Document_Sort, with_doc. cbn [Value_Sort kind primitive dbl str arr doc ts fields].
  rewrite <- (SliceStable_on_value Value_Sort). reflexivity.
Qed.

(** [v.Dedup()], as the source has it. *)
Lemma Value_Dedup_eq (v : Value) :
  Value_Dedup v =
  match kind v with
  | KindObject => with_doc (Document_Dedup (doc v)) v
  | KindArr => with_arr (map Value_Dedup (arr v)) v
  | _ => v
  end.
Proof.
  destruct v as [k p d s a dc t]. destruct k; try reflexivity.
  unfold Document_Dedup, with_doc. cbn [Value_Dedup kind primitive dbl str arr doc ts fields].
  rewrite <- (Dedup_fields_on_value Value_Dedup eq_refl). reflexivity.
Qed.

Lemma Document_Dedup_fields (d : Document) :
  fields (Document_Dedup d)
  = on_value Value_Dedup <$> mark_adjacent (rename_adjacent (fields d)).
Proof. unfold Document_Dedup. simpl. rewrite Dedup_fields_passes. reflexivity. Qed.

Lemma rename_adjacent_value (fs : list field) (i : nat) :
  value <$> rename_adjacent fs !! i = value <$> fs !! i.
Proof.
  unfold rename_adjacent. rewrite adjacent_pass_lookup.
  destruct (fs !! i) as [fi|]; [| reflexivity].
  destruct (fs !! (i + 1)%nat) as [fj|]; [| reflexivity].
  destruct (collides fi fj); reflexivity.
Qed.

Lemma mark_adjacent_key (fs : list field) (i : nat) :
  key <$> mark_adjacent fs !! i = key <$> fs !! i.
Proof.
  unfold mark_adjacent. rewrite adjacent_pass_lookup.
  destruct (fs !! i) as [fi|]; [| reflexivity].
  destruct (fs !! (i + 1)%nat) as [fj|]; [| reflexivity].
  destruct (same_key fi fj); reflexivity.
Qed.

(** What the second loop leaves at position [i], by the keys around it. *)
Lemma mark_adjacent_value (fs : list field) (i : nat) (k : string) :
  key <$> fs !! i = Some k ->
  value <$> mark_adjacent fs !! i
  = if decide (key <$> fs !! (i + 1)%nat = Some k) then Some ignoreValue
    else value <$> fs !! i.
Proof.
  unfold mark_adjacent. rewrite adjacent_pass_lookup.
  destruct (fs !! i) as [fi|]; [| discriminate]. intros [= <-].
  destruct (fs !! (i + 1)%nat) as [fj|]; cbn [fmap option_fmap option_map].
  - unfold same_key. destruct (String.eqb_spec (key fi) (key fj)) as [E | E];
      case_decide as D; try reflexivity.
    + destruct D. rewrite E. reflexivity.
    + destruct E. congruence.
  - case_decide; [discriminate | reflexivity].
Qed.

(** ** Exact duplicates *)



(** ** Dedup applied twice *)

Lemma rename_adjacent_no_collision (fs : list field) :
  no_collision fs = true -> rename_adjacent fs = fs.
Proof.
  unfold rename_adjacent.
  induction fs as [|fi [|fj fs] IH]; [reflexivity | reflexivity |].
  cbn [no_collision adjacent_pass] in *. intros H.
  apply andb_true_iff in H as [Hc Hrest]. apply negb_true_iff in Hc.
  rewrite Hc, IH by exact Hrest. reflexivity.
Qed.

Lemma mark_adjacent_head (fi : field) (fs : list field) :
  exists fi' fs', mark_adjacent (fi :: fs) = fi' :: fs' /\ key fi' = key fi.
Proof.
  unfold mark_adjacent. destruct fs as [|fj fs]; cbn [adjacent_pass].
  - exists fi, []. split; reflexivity.
  - eexists _, _. split; [reflexivity|]. destruct (same_key fi fj); reflexivity.
Qed.

Lemma mark_adjacent_idem (fs : list field) :
  mark_adjacent (mark_adjacent fs) = mark_adjacent fs.
Proof.
  induction fs as [|fi [|fj fs] IH]; [reflexivity | reflexivity |].
  change (mark_adjacent (fi :: fj :: fs))
    with ((if same_key fi fj then mark_field fi else fi) :: mark_adjacent (fj :: fs))
    in *.
  destruct (mark_adjacent_head fj fs) as (fj' & fs' & E & Hk).
  rewrite E in *.
  change (mark_adjacent (?x :: fj' :: fs'))
    with ((if same_key x fj' then mark_field x else x) :: mark_adjacent (fj' :: fs')).
  rewrite IH. f_equal. unfold same_key. rewrite Hk.
  destruct (String.eqb (key fi) (key fj)) eqn:Ek.
  - cbn [mark_field key]. rewrite Ek. reflexivity.
  - rewrite Ek. reflexivity.
Qed.

(** Each value that the two passes leave is [ignoreValue] or was there. *)
Lemma Dedup_passes_values (fs : list field) (f : field) :
  f ∈ mark_adjacent (rename_adjacent fs) ->
  value f = ignoreValue \/ exists f0, f0 ∈ fs /\ value f = value f0.
Proof.
  intros Hf. apply list_elem_of_lookup in Hf as [i Hi].
  assert (Hv : value <$> mark_adjacent (rename_adjacent fs) !! i = Some (value f))
    by (rewrite Hi; reflexivity).
  destruct (rename_adjacent fs !! i) as [g|] eqn:Eg.
  - rewrite (mark_adjacent_value _ _ (key g)) in Hv by (rewrite Eg; reflexivity).
    case_decide.
    + left. congruence.
    + right. rewrite rename_adjacent_value in Hv.
      destruct (fs !! i) as [f0|] eqn:E0; [| discriminate].
      exists f0. split; [eapply list_elem_of_lookup_2, E0 |].
      cbn in Hv. congruence.
  - pose proof (mark_adjacent_key (rename_adjacent fs) i) as Hk.
    rewrite Hi, Eg in Hk. discriminate.
Qed.

(** The fields of a document after [Dedup], once more through [Dedup]. *)
Lemma Dedup_fields_settled (fs : list field) :
  let r := Dedup_fields (on_value Value_Dedup <$> fs) in
  Forall (fun fld => Value_settled (Value_Dedup (value fld)) = true ->
                     Value_Dedup (Value_Dedup (value fld)) = Value_Dedup (value fld)) fs ->
  no_collision r = true ->
  forallb (fun fld => Value_settled (value fld)) r = true ->
  Dedup_fields (on_value Value_Dedup <$> r) = r.
Proof.
  intros r IH Hnc Hset.
  assert (Hfix : on_value Value_Dedup <$> r = r).
  { rewrite <- (list_fmap_id r) at 2. apply list_fmap_ext.
    intros i f Hf. apply list_elem_of_lookup_2 in Hf.
    assert (Hsf : Value_settled (value f) = true).
    { rewrite forallb_forall in Hset. apply Hset, list_elem_of_In, Hf. }
    subst r. rewrite Dedup_fields_passes in Hf.
    destruct f as [fk fv]. unfold on_value, id. cbn [key value] in *. f_equal.
    destruct (Dedup_passes_values _ _ Hf) as [Hi | (f0 & Hf0 & Hv)];
      cbn [value] in *.
    - rewrite Hi. reflexivity.
    - apply list_elem_of_fmap in Hf0 as (f1 & -> & Hf1). cbn [on_value value] in Hv.
      rewrite Forall_forall in IH. rewrite Hv in *. apply (IH f1 Hf1 Hsf). }
  rewrite Hfix, Dedup_fields_passes.
  rewrite rename_adjacent_no_collision by exact Hnc.
  subst r. rewrite Dedup_fields_passes. apply mark_adjacent_idem.
Qed.

Lemma Value_Dedup_settled (v : Value) :
  Value_settled (Value_Dedup v) = true ->
  Value_Dedup (Value_Dedup v) = Value_Dedup v.
Proof.
  induction v as [k p d s a dc t IHa IHd] using Value_ind.
  destruct k; try reflexivity.
  - (* KindArr *)
    cbn [Value_Dedup Value_settled]. intros Hset. f_equal.
    change (map Value_Dedup (map Value_Dedup a)) with (Value_Dedup <$> (Value_Dedup <$> a)).
    change (map Value_Dedup a) with (Value_Dedup <$> a) in Hset.
    induction IHa as [|x a Hx _ IH]; [reflexivity|].
    cbn [fmap list_fmap forallb] in *.
    apply andb_true_iff in Hset as [Hsx Hsa].
    rewrite (Hx Hsx), (IH Hsa). reflexivity.
  - (* KindObject *)
    cbn [Value_Dedup Value_settled fields]. intros Hset.
    apply andb_true_iff in Hset as [Hnc Hvs]. do 2 f_equal.
    apply (Dedup_fields_settled (fields dc) IHd Hnc Hvs).
Qed.

(** C3, as it stands, fails: after the first [Dedup] the renamed key
    "a.value" is a path prefix of its neighbour "a.value.b", and the
    second [Dedup] renames it again. *)
Lemma Dedup_twice_differs :
  let d := Document_Sort
    (mkDocument [mkField "a" (IntValue 1); mkField "a.value.b" (IntValue 2)]) in
  fields (Document_Dedup d)
  = [mkField "a.value" (IntValue 1); mkField "a.value.b" (IntValue 2)]
  /\ fields (Document_Dedup (Document_Dedup d))
     = [mkField "a.value.value" (IntValue 1); mkField "a.value.b" (IntValue 2)]
  /\ Document_Dedup (Document_Dedup d) <> Document_Dedup d.
Proof.
  intros d. split; [reflexivity | split; [reflexivity | discriminate]].
Qed.

(** C3, amended: when the first [Dedup] of a sorted document leaves no
    field whose key is a strictly shorter prefix of the next field's key,
    neither in the document nor in the documents inside its values, a
    second [Dedup] renames nothing and yields the same fields, keys and
    values. *)
Theorem Dedup_twice_when_settled (d : Document) :
  Document_settled (Document_Dedup (Document_Sort d)) = true ->
  rename_adjacent (fields (Document_Dedup (Document_Sort d)))
  = fields (Document_Dedup (Document_Sort d))
  /\ Document_Dedup (Document_Dedup (Document_Sort d))
     = Document_Dedup (Document_Sort d).
Proof.
  generalize (Document_Sort d) as s. clear d. intros s Hset.
  unfold Document_settled in Hset. apply andb_true_iff in Hset as [Hnc Hvs].
  split; [apply rename_adjacent_no_collision, Hnc |].
  unfold Document_Dedup in *. cbn [fields] in *. f_equal.
  set (r := map (on_value Value_Dedup) (Dedup_fields (fields s))) in *.
  assert (E : r = Dedup_fields (on_value Value_Dedup <$> fields s))
    by (symmetry; apply Dedup_fields_on_value; reflexivity).
  change (on_value Value_Dedup <$> Dedup_fields r = r).
  rewrite <- (Dedup_fields_on_value Value_Dedup eq_refl r).
  clearbody r. subst r.
  apply Dedup_fields_settled; [| exact Hnc | exact Hvs].
  apply Forall_forall. intros f _. apply Value_Dedup_settled.
Qed.

Lemma Dedup_twice_when_settled_witness :
  let d := mkDocument
    [mkField "k" (IntValue 1); mkField "a.b" (StringValue "x");
     mkField "a" (ArrValue [ObjectValue (mkDocument
        [mkField "p" (IntValue 1); mkField "p.q" (IntValue 2); mkField "p.q" nilValue])]);
     mkField "k" (IntValue 2)] in
  Document_Dedup (Document_Dedup (Document_Sort d))
  = Document_Dedup (Document_Sort d).
Proof.
  intros d. apply (Dedup_twice_when_settled d). reflexivity.
Defined.

(** ** Timestamps *)

Lemma matches_app (p1 p2 : list slot) (s1 s2 : list ascii) :
  matches p1 s1 = true -> matches p2 s2 = true ->
  matches (p1 ++ p2) (s1 ++ s2) = true.
Proof.
  revert s1. induction p1 as [|p p1 IH]; intros [|c s1]; simpl;
    try discriminate; [auto |].
  intros H1 H2. apply andb_true_iff in H1 as [Hc H1].
  rewrite Hc, IH by assumption. reflexivity.
Qed.

Lemma matches_length (p : list slot) (s : list ascii) :
  matches p s = true -> length s = length p.
Proof.
  revert s. induction p as [|x p IH]; intros [|c s]; simpl;
    try discriminate; [reflexivity |].
  intros H. apply andb_true_iff in H as [_ H]. rewrite (IH s H). reflexivity.
Qed.

Lemma matches_digits (s : list ascii) :
  Forall (fun c => isDigit c = true) s -> matches (replicate (length s) D) s = true.
Proof.
  induction 1 as [|c s Hc _ IH]; [reflexivity|]. simpl. rewrite Hc, IH. reflexivity.
Qed.

Lemma digit_spec (u : Z) :
  0 <= u <= 9 ->
  isDigit (digit u) = true /\ Z.of_N (N_of_ascii (digit u)) - 48 = u.
Proof.
  intros Hu.
  assert (H : u = 0 \/ u = 1 \/ u = 2 \/ u = 3 \/ u = 4 \/ u = 5 \/ u = 6
              \/ u = 7 \/ u = 8 \/ u = 9) by lia.
  repeat (destruct H as [-> | H]; [split; reflexivity |]). subst u.
  split; reflexivity.
Qed.

Lemma decimalValue_snoc (ds : list ascii) (c : ascii) :
  decimalValue (ds ++ [c])
  = 10 * decimalValue ds + (Z.of_N (N_of_ascii c) - 48).
Proof. unfold decimalValue. rewrite fold_left_app. reflexivity. Qed.

Lemma decimalValue_zeros (n : nat) (ds : list ascii) :
  decimalValue (repeat "0"%char n ++ ds) = decimalValue ds.
Proof.
  unfold decimalValue. rewrite fold_left_app. f_equal.
  induction n as [|n IH]; [reflexivity|]. exact IH.
Qed.

(** The digits of [u], at most [k] of them when [u < 10^k]. *)
Lemma decimal_digits (k : nat) :
  forall (room : nat) (u : Z) (acc : list ascii),
    (0 < k <= room)%nat -> 0 <= u < 10 ^ Z.of_nat k ->
    exists ds, decimal room u acc = ds ++ acc
               /\ (0 < length ds <= k)%nat
               /\ Forall (fun c => isDigit c = true) ds
               /\ decimalValue ds = u.
Proof.
  induction k as [|k IH]; intros room u acc Hk Hu; [lia|].
  destruct room as [|room]; [lia|]. cbn [decimal].
  destruct (Z.geb_spec u 10) as [Hge | Hlt].
  - destruct k as [|k]; [simpl in Hu; lia|].
    assert (Hq : 0 <= u / 10 < 10 ^ Z.of_nat (S k)).
    { rewrite (Nat2Z.inj_succ (S k)), Z.pow_succ_r in Hu by lia.
      split; [apply Z.div_pos; lia | apply Z.div_lt_upper_bound; lia]. }
    destruct (IH room (u / 10) (digit (u - u / 10 * 10) :: acc))
      as (ds & E & Hl & Hd & Hv); [lia | exact Hq |].
    assert (Hr : 0 <= u - u / 10 * 10 <= 9).
    { pose proof (Z.div_mod u 10). pose proof (Z.mod_pos_bound u 10). lia. }
    destruct (digit_spec _ Hr) as [Hdig Hval].
    exists (ds ++ [digit (u - u / 10 * 10)]). rewrite E, <- app_assoc.
    split; [reflexivity | split; [| split]].
    + rewrite length_app. simpl. lia.
    + apply Forall_app. split; [exact Hd |]. constructor; [exact Hdig | constructor].
    + rewrite decimalValue_snoc, Hv, Hval. lia.
  - destruct (digit_spec u ltac:(lia)) as [Hdig Hval].
    exists [digit u]. split; [reflexivity | split; [| split]].
    + simpl. lia.
    + constructor; [exact Hdig | constructor].
    + unfold decimalValue. simpl fold_left. lia.
Qed.

(** A number of at most [width] digits comes out as exactly [width]
    digits, which write that number. *)
Lemma appendInt_digits (b : list ascii) (x : Z) (width : nat) :
  (0 < width <= 20)%nat -> 0 <= x < 10 ^ Z.of_nat width ->
  exists ds, appendInt b x width = b ++ ds
             /\ matches (replicate width D) ds = true
             /\ decimalValue ds = x.
Proof.
  intros Hw Hx. unfold appendInt.
  destruct (Z.ltb_spec x 0) as [Hneg | _]; [lia|].
  destruct (decimal_digits width 20 x [] Hw Hx) as (ds & E & Hl & Hd & Hv).
  rewrite app_nil_r in E. rewrite E.
  exists (repeat "0"%char (width - length ds) ++ ds).
  split; [reflexivity | split; [| rewrite decimalValue_zeros; exact Hv]].
  replace width with ((width - length ds) + length ds)%nat at 1 by lia.
  rewrite replicate_add. apply matches_app; [| apply matches_digits, Hd].
  generalize (width - length ds)%nat as n. induction n as [|n IH]; [reflexivity|].
  simpl. exact IH.
Qed.

(** Whatever the number, [appendInt] only adds to the buffer. *)
Lemma appendInt_extends (b : list ascii) (x : Z) (width : nat) :
  exists ds, appendInt b x width = b ++ ds.
Proof.
  unfold appendInt. destruct (x <? 0).
  - eexists. rewrite <- app_assoc. reflexivity.
  - eexists. reflexivity.
Qed.

Lemma nanoDigits_digits (k : nat) :
  forall (u : Z) (acc : list ascii),
    exists ds, nanoDigits k u acc = ds ++ acc
               /\ matches (replicate k D) ds = true
               /\ decimalValue ds = u mod 10 ^ Z.of_nat k.
Proof.
  induction k as [|k IH]; intros u acc.
  { exists []. split; [reflexivity | split; [reflexivity |]].
    change (10 ^ Z.of_nat 0) with 1. rewrite Z.mod_1_r. reflexivity. }
  cbn [nanoDigits].
  destruct (IH (u / 10) (digit (u mod 10) :: acc)) as (ds & E & Hm & Hv).
  assert (Hr : 0 <= u mod 10 <= 9) by (pose proof (Z.mod_pos_bound u 10); lia).
  destruct (digit_spec _ Hr) as [Hdig Hval].
  exists (ds ++ [digit (u mod 10)]). rewrite E, <- app_assoc.
  split; [reflexivity | split].
  - replace (S k) with (k + 1)%nat by lia. rewrite replicate_add.
    apply matches_app; [exact Hm|]. simpl. rewrite Hdig. reflexivity.
  - rewrite decimalValue_snoc, Hv, Hval, Nat2Z.inj_succ, Z.pow_succ_r by lia.
    rewrite (Z.rem_mul_r u 10 (10 ^ Z.of_nat k)) by lia. lia.
Qed.

Lemma formatNano_9 (b : list ascii) (nanosec : Z) :
  exists ds, formatNano b nanosec 9 = b ++ "."%char :: ds
             /\ matches (replicate 9 D) ds = true
             /\ decimalValue ds = nanosec mod 1000000000.
Proof.
  unfold formatNano. destruct (nanoDigits_digits 9 nanosec []) as (ds & E & Hm & Hv).
  rewrite app_nil_r in E. rewrite E. exists ds.
  split; [| split; [exact Hm | exact Hv]].
  change (9 <? 9)%nat with false. cbv iota.
  pose proof (matches_length _ _ Hm) as Hl. rewrite length_replicate in Hl.
  rewrite take_ge by lia. reflexivity.
Qed.

Lemma abs_nonneg (t : Time) : 0 <= abs t < 2 ^ 64.
Proof. unfold abs. apply Z.mod_pos_bound. reflexivity. Qed.

Lemma absClock_bounds (a : Z) :
  0 <= a ->
  let '(hour, min, sec) := absClock a in
  0 <= hour < 24 /\ 0 <= min < 60 /\ 0 <= sec < 60.
Proof.
  intros Ha. unfold absClock, secondsPerDay. cbv zeta.
  Z.div_mod_to_equations. lia.
Qed.

Lemma absYday_bounds (a : Z) :
  0 <= a -> 0 <= snd (absYday a) <= 365.
Proof.
  intros Ha. unfold absYday, secondsPerDay, daysPer400Years, daysPer100Years,
    daysPer4Years. cbv zeta. cbn [snd].
  rewrite !Z.shiftr_div_pow2 by lia. change (2 ^ 2) with 4.
  change (365 * 400 + 97) with 146097. change (365 * 100 + 24) with 36524.
  change (365 * 4 + 1) with 1461.
  Z.div_mod_to_equations. lia.
Qed.

Lemma monthDay_bounds (year yday : Z) :
  0 <= yday <= 365 ->
  1 <= fst (monthDay year yday) <= 13 /\ 1 <= snd (monthDay year yday) <= 31.
Proof.
  intros Hy. unfold monthDay. cbv zeta.
  destruct (isLeap year && (yday =? 31 + 29 - 1)); [cbn [fst snd]; lia|].
  set (day := if isLeap year && (yday >? 31 + 29 - 1) then yday - 1 else yday).
  assert (Hd : 0 <= day <= 365).
  { subst day. destruct (isLeap year); cbn [andb]; [| lia].
    destruct (Z.gtb_spec yday (31 + 29 - 1)); lia. }
  clearbody day.
  assert (Hm : day / 31 = 0 \/ day / 31 = 1 \/ day / 31 = 2 \/ day / 31 = 3
               \/ day / 31 = 4 \/ day / 31 = 5 \/ day / 31 = 6 \/ day / 31 = 7
               \/ day / 31 = 8 \/ day / 31 = 9 \/ day / 31 = 10 \/ day / 31 = 11)
    by (Z.div_mod_to_equations; lia).
  assert (Hq : 31 * (day / 31) <= day < 31 * (day / 31) + 31)
    by (Z.div_mod_to_equations; lia).
  repeat (destruct Hm as [Hm | Hm]);
    rewrite Hm in *;
    repeat match goal with
      | |- context [nth ?n daysBefore 0] =>
          let v := eval vm_compute in (nth n daysBefore 0) in
          change (nth n daysBefore 0) with v
      end;
    match goal with |- context [?x >=? ?c] => destruct (Z.geb_spec x c) end;
    cbv beta iota zeta; cbn [fst snd]; lia.
Qed.

Lemma absDate_Year (t : Time) : fst (fst (fst (absDate (abs t)))) = Year t.
Proof.
  unfold Year, absDate. destruct (absYday (abs t)) as [year yday].
  destruct (monthDay year yday). reflexivity.
Qed.

(** The formatter, piece by piece. *)
Lemma appendChunk_eq (t : Time) (b : list ascii) (c : chunk) :
  appendChunk t b c =
  match c with
  | literal s => b ++ s
  | stdLongYear => appendInt b (Year t) 4
  | stdZeroMonth => appendInt b (Month t) 2
  | stdZeroDay => appendInt b (Day t) 2
  | stdHour => appendInt b (Hour t) 2
  | stdZeroMinute => appendInt b (Minute t) 2
  | stdZeroSecond => appendInt b (Second t) 2
  | stdFracSecond0 n => formatNano b (nsec t) n
  end.
Proof.
  rewrite <- absDate_Year. unfold appendChunk, Month, Day, Hour, Minute, Second.
  destruct (absDate (abs t)) as [[[year month] day] yday].
  destruct (absClock (abs t)) as [[hour min] sec]. reflexivity.
Qed.

Lemma Time_fields_bounds (t : Time) :
  1 <= Month t <= 13 /\ 1 <= Day t <= 31
  /\ 0 <= Hour t < 24 /\ 0 <= Minute t < 60 /\ 0 <= Second t < 60.
Proof.
  pose proof (abs_nonneg t) as [Ha _].
  pose proof (absClock_bounds (abs t) Ha) as Hc.
  pose proof (absYday_bounds (abs t) Ha) as Hy.
  unfold Month, Day, Hour, Minute, Second, absDate.
  destruct (absClock (abs t)) as [[hour min] sec].
  destruct (absYday (abs t)) as [year yday]. cbn [snd] in Hy.
  pose proof (monthDay_bounds year yday Hy) as Hmd.
  destruct (monthDay year yday) as [month day]. cbn [fst snd] in *. lia.
Qed.

Lemma length_list_ascii_of_string (s : string) :
  length (list_ascii_of_string s) = String.length s.
Proof. induction s as [|c s IH]; [reflexivity|]. simpl. rewrite IH. reflexivity. Qed.

(** The text of a formatted timestamp: six groups of digits that write
    the fields of the date and the clock, the nine digits of the
    nanoseconds, and the separators of the layout. *)
Lemma Format_tsLayout_groups (t : Time) :
  0 <= Year t <= 9999 ->
  exists Y M D h m s f : list ascii,
    list_ascii_of_string (Format t tsLayout)
    = Y ++ "-"%char :: M ++ "-"%char :: D ++ "T"%char :: h ++ ":"%char :: m
        ++ ":"%char :: s ++ "."%char :: f ++ ["Z"%char]
    /\ (length Y = 4 /\ length M = 2 /\ length D = 2 /\ length h = 2
        /\ length m = 2 /\ length s = 2 /\ length f = 9)%nat
    /\ decimalValue Y = Year t /\ decimalValue M = Month t
    /\ decimalValue D = Day t /\ decimalValue h = Hour t
    /\ decimalValue m = Minute t /\ decimalValue s = Second t
    /\ decimalValue f = nsec t mod 1000000000
    /\ tsShape (Format t tsLayout) = true.
Proof.
  intros Hyear. pose proof (Time_fields_bounds t) as (HM & HD & Hh & Hm & Hs).
  unfold tsShape, Format, tsLayout. rewrite list_ascii_of_string_of_list_ascii.
  cbn [fold_left]. rewrite !appendChunk_eq.
  destruct (appendInt_digits [] (Year t) 4) as (Y & -> & HY & VY); [lia | simpl; lia |].
  destruct (appendInt_digits (([] ++ Y) ++ ["-"%char]) (Month t) 2)
    as (M & -> & HMo & VM); [lia | simpl; lia |].
  destruct (appendInt_digits (((([] ++ Y) ++ ["-"%char]) ++ M) ++ ["-"%char]) (Day t) 2)
    as (Dd & -> & HDd & VD); [lia | simpl; lia |].
  match goal with |- context [appendInt ?b (Hour t) 2] =>
    destruct (appendInt_digits b (Hour t) 2) as (h & -> & Hhh & Vh);
      [lia | simpl; lia |] end.
  match goal with |- context [appendInt ?b (Minute t) 2] =>
    destruct (appendInt_digits b (Minute t) 2) as (m & -> & Hmm & Vm);
      [lia | simpl; lia |] end.
  match goal with |- context [appendInt ?b (Second t) 2] =>
    destruct (appendInt_digits b (Second t) 2) as (s & -> & Hss & Vs);
      [lia | simpl; lia |] end.
  match goal with |- context [formatNano ?b (nsec t) 9] =>
    destruct (formatNano_9 b (nsec t)) as (f & -> & Hff & Vf) end.
  exists Y, M, Dd, h, m, s, f.
  pose proof (matches_length _ _ HY). pose proof (matches_length _ _ HMo).
  pose proof (matches_length _ _ HDd). pose proof (matches_length _ _ Hhh).
  pose proof (matches_length _ _ Hmm). pose proof (matches_length _ _ Hss).
  pose proof (matches_length _ _ Hff).
  rewrite <- !app_assoc. cbn [app].
  repeat split; try assumption.
  change tsPattern with
    (replicate 4 D ++ L "-" :: replicate 2 D ++ L "-" :: replicate 2 D
       ++ L "T" :: replicate 2 D ++ L ":" :: replicate 2 D ++ L ":"
       :: replicate 2 D ++ L "." :: replicate 9 D ++ [L "Z"]).
  repeat first
    [ apply matches_app; [assumption | idtac]
    | apply (matches_app [_] _ [_] _); [reflexivity | idtac] ].
  reflexivity.
Qed.

(** Whatever the year, a formatted timestamp ends in a dot, nine digits and [Z]. *)
Lemma Format_tsLayout_frac (t : Time) : fracShape (Format t tsLayout) = true.
Proof.
  unfold fracShape, Format, tsLayout. rewrite list_ascii_of_string_of_list_ascii.
  cbn [fold_left]. rewrite !appendChunk_eq.
  match goal with |- context [formatNano ?b (nsec t) 9] =>
    destruct (formatNano_9 b (nsec t)) as (f & -> & Hff & Vf);
    generalize b as pre; intros pre end.
  pose proof (matches_length _ _ Hff) as Hl. rewrite length_replicate in Hl.
  replace ((pre ++ "."%char :: f) ++ ["Z"%char])
    with (pre ++ ("."%char :: f ++ ["Z"%char]))
    by (rewrite <- app_assoc; reflexivity).
  replace (length (pre ++ "."%char :: f ++ ["Z"%char]) - 11)%nat with (length pre)
    by (rewrite length_app; simpl; rewrite length_app; simpl; lia).
  rewrite drop_app_length.
  change fracPattern with ([L "."%char] ++ replicate 9 D ++ [L "Z"%char]).
  apply (matches_app [_] _ [_] _); [reflexivity|].
  apply matches_app; [exact Hff | reflexivity].
Qed.

(** The instants of a [pdata.Timestamp] lie in the years 1677 to 2262. *)
Lemma Timestamp_year (ts : Timestamp) :
  0 <= ts < 2 ^ 64 -> 1677 <= Year (UTC (Unix0 (int64 ts))) <= 2262.
Proof.
  intros Hts.
  assert (Hi : - 2 ^ 63 <= int64 ts < 2 ^ 63).
  { unfold int64. destruct (Z.ltb_spec ts (2 ^ 63)); lia. }
  unfold Year, UTC, Unix0, abs. cbn [unixSec].
  generalize dependent (int64 ts). clear ts Hts. intros ns Hns.
  assert (Hs : -9223372037 <= ns / 1000000000 <= 9223372036).
  { change (2 ^ 63) with 9223372036854775808 in Hns.
    Z.div_mod_to_equations. lia. }
  generalize dependent (ns / 1000000000). clear ns Hns. intros sec Hs.
  change (unixToInternal + internalToAbsolute) with 9223372028715321600.
  rewrite Z.mod_small
    by (change (2 ^ 64) with 18446744073709551616; lia).
  unfold absYday, secondsPerDay, daysPer400Years, daysPer100Years,
    daysPer4Years, absoluteZeroYear. cbv zeta. cbn [fst].
  rewrite !Z.shiftr_div_pow2 by lia. change (2 ^ 2) with 4.
  change (365 * 400 + 97) with 146097. change (365 * 100 + 24) with 36524.
  change (365 * 4 + 1) with 1461.
  Z.div_mod_to_equations. lia.
Qed.

(** C7, as it stands, fails: [TimestampValue] takes any [time.Time], and
    from the year 10000 on the year has five digits; the first second of
    that year is written in 31 characters. *)
Lemma Timestamp_year_10000 :
  let t := mkTime 253402300800 0 in
  wf t
  /\ Value_iterJSON okVisitor (TimestampValue t) false []
     = ([OnString "10000-01-01T00:00:00.000000000Z"], None)
  /\ String.length (Format (UTC t) tsLayout) = 31%nat
  /\ tsShape (Format (UTC t) tsLayout) = false.
Proof.
  intros t. split; [unfold wf; simpl; lia |].
  split; [| split]; vm_compute; reflexivity.
Qed.

(** C7, amended: a Timestamp whose year in UTC is from 0 to 9999 is
    handed to the sink as a string of the shape
    [YYYY-MM-DDTHH:MM:SS.nnnnnnnnnZ]: thirty characters, whose groups of
    digits write the year, month, day, hour, minute and second of the
    instant in UTC and, in nine digits, its nanoseconds, followed by [Z].
    Whatever the year, the string ends in the dot, the nine digits and
    [Z].  The timestamps that [AddTimestamp] adds, which come from a
    [pdata.Timestamp], have years from 1677 to 2262 and so that shape. *)
Theorem Timestamp_layout (w : Visitor) :
  (forall (t : Time) (dedot : bool) (h : Trace),
      wf t -> 0 <= Year (UTC t) <= 9999 ->
      exists str,
        Value_iterJSON w (TimestampValue t) dedot h = call w (OnString str) h
        /\ String.length str = 30%nat
        /\ tsShape str = true
        /\ exists Y M D h m s f : list ascii,
            list_ascii_of_string str
            = Y ++ "-"%char :: M ++ "-"%char :: D ++ "T"%char :: h ++ ":"%char
                :: m ++ ":"%char :: s ++ "."%char :: f ++ ["Z"%char]
            /\ (length Y = 4 /\ length M = 2 /\ length D = 2 /\ length h = 2
                /\ length m = 2 /\ length s = 2 /\ length f = 9)%nat
            /\ decimalValue Y = Year (UTC t) /\ decimalValue M = Month (UTC t)
            /\ decimalValue D = Day (UTC t) /\ decimalValue h = Hour (UTC t)
            /\ decimalValue m = Minute (UTC t) /\ decimalValue s = Second (UTC t)
            /\ decimalValue f = nsec t)
  /\ (forall (t : Time) (dedot : bool) (h : Trace),
      exists str,
        Value_iterJSON w (TimestampValue t) dedot h = call w (OnString str) h
        /\ fracShape str = true)
  /\ (forall (d : Document) (k : string) (ts : Timestamp),
      0 <= ts < 2 ^ 64 ->
      exists t,
        Document_AddTimestamp d k ts = Document_Add d k (TimestampValue t)
        /\ wf t /\ 1677 <= Year (UTC t) <= 2262).
Proof.
  split; [| split].
  - intros t dedot h Hwf Hyear. exists (Format (UTC t) tsLayout).
    destruct (Format_tsLayout_groups (UTC t) Hyear)
      as (Y & M & D & hh & m & s & f & E & Hl & VY & VM & VD & Vh & Vm & Vs & Vf & Hs).
    split; [reflexivity | split; [| split; [exact Hs |]]].
    + rewrite <- length_list_ascii_of_string.
      apply (matches_length tsPattern), Hs.
    + exists Y, M, D, hh, m, s, f. repeat split; try tauto; try assumption.
      rewrite Vf. apply Z.mod_small, Hwf.
  - intros t dedot h. exists (Format (UTC t) tsLayout).
    split; [reflexivity | apply Format_tsLayout_frac].
  - intros d k ts Hts. exists (UTC (Unix0 (int64 ts))).
    split; [reflexivity | split; [| apply Timestamp_year, Hts]].
    unfold wf, UTC, Unix0. cbn [nsec]. apply Z.mod_pos_bound. reflexivity.
Qed.

Lemma Timestamp_layout_witness :
  let t := mkTime 1614556800 123456789 in
  exists str,
    Value_iterJSON okVisitor (TimestampValue t) false []
    = ([OnString str], None)
    /\ String.length str = 30%nat
    /\ tsShape str = true.
Proof.
  intros t.
  assert (Hwf : wf t) by (unfold wf; simpl; lia).
  assert (Hy : 0 <= Year (UTC t) <= 9999) by (vm_compute; split; discriminate).
  destruct (proj1 (Timestamp_layout okVisitor) t false [] Hwf Hy)
    as (str & E & Hl & Hs & _).
  exists str. split; [exact E | split; [exact Hl | exact Hs]].
Defined.

(** * Further properties of the code *)

(** ** Sort *)

Lemma StronglySorted_keys_ascending (l : list field) :
  StronglySorted (fun a b => String.ltb (key b) (key a) = false) l ->
  keys_ascending l = true.
Proof.
  induction 1 as [|fi l Hl IH Hfi]; [reflexivity|].
  destruct l as [|fj l]; [reflexivity|].
  change (negb (String.ltb (key fj) (key fi)) && keys_ascending (fj :: l) = true).
  apply Forall_cons in Hfi as [Hj _]. rewrite Hj, IH. reflexivity.
Qed.

Lemma SliceStable_keys_ascending (l : list field) :
  keys_ascending (SliceStable key_less l) = true.
Proof.
  apply StronglySorted_keys_ascending.
  apply (SliceStable_sorted key_less key_less_asym key_less_negtrans).
Qed.

Lemma Value_Sort_sorted (v : Value) : Value_sorted (Value_Sort v) = true.
Proof.
  induction v as [k p d s a dc t IHa IHd] using Value_ind.
  destruct k; try reflexivity.
  - cbn [Value_Sort Value_sorted]. apply forallb_forall. intros x Hx.
    apply in_map_iff in Hx as (y & <- & Hy).
    rewrite Forall_forall in IHa. apply IHa, list_elem_of_In, Hy.
  - cbn [Value_Sort Value_sorted fields]. apply andb_true_iff. split.
    + apply SliceStable_keys_ascending.
    + apply forallb_forall. intros f Hf. apply list_elem_of_In in Hf.
      rewrite (SliceStable_Permutation key_less) in Hf.
      apply list_elem_of_fmap in Hf as (f0 & -> & Hf0).
      rewrite Forall_forall in IHd. apply (IHd f0 Hf0).
Qed.

(** X1: after [Sort] the keys of the document are in ascending byte-wise
    order, and so are the keys of every document nested in its values,
    inside objects and inside arrays, at every depth. *)
Theorem Sort_orders_every_level (d : Document) :
  Document_sorted (Document_Sort d) = true.
Proof.
  unfold Document_sorted, Document_Sort. cbn [fields].
  apply andb_true_iff. split.
  - change (map (on_value Value_Sort) ?l) with (on_value Value_Sort <$> l).
    rewrite <- (SliceStable_on_value Value_Sort). apply SliceStable_keys_ascending.
  - apply forallb_forall. intros f Hf. apply in_map_iff in Hf as (f0 & <- & _).
    apply Value_Sort_sorted.
Qed.

Section SortedInput.

Context {A : Type} (less : A -> A -> bool).

(** Sorting what is in order changes nothing. *)
Lemma SliceStable_of_sorted (l : list A) :
  StronglySorted (fun a b => less b a = false) l -> SliceStable less l = l.
Proof.
  unfold SliceStable. induction 1 as [|x l Hl IH Hx]; [reflexivity|].
  cbn [foldr]. rewrite IH. destruct l as [|y l]; [reflexivity|].
  apply Forall_cons in Hx as [Hy _]. cbn [insert_stable]. rewrite Hy. reflexivity.
Qed.

End SortedInput.

Lemma SliceStable_key_less_idem (l : list field) :
  SliceStable key_less (SliceStable key_less l) = SliceStable key_less l.
Proof.
  apply SliceStable_of_sorted.
  apply (SliceStable_sorted key_less key_less_asym key_less_negtrans).
Qed.

Lemma Value_Sort_idem (v : Value) : Value_Sort (Value_Sort v) = Value_Sort v.
Proof.
  induction v as [k p d s a dc t IHa IHd] using Value_ind.
  destruct k; try reflexivity.
  - cbn [Value_Sort]. f_equal. rewrite map_map. apply map_ext_in.
    intros x Hx. rewrite Forall_forall in IHa. apply IHa, list_elem_of_In, Hx.
  - cbn [Value_Sort fields]. do 2 f_equal.
    set (X := map (on_value Value_Sort) (fields dc)).
    change (SliceStable key_less (on_value Value_Sort <$> SliceStable key_less X)
            = SliceStable key_less X).
    rewrite <- (SliceStable_on_value Value_Sort X), SliceStable_key_less_idem.
    f_equal. subst X.
    change (map (on_value Value_Sort) ?l) with (on_value Value_Sort <$> l).
    rewrite <- list_fmap_compose. apply list_fmap_ext. intros i f Hf.
    apply list_elem_of_lookup_2 in Hf. rewrite Forall_forall in IHd.
    unfold compose, on_value. cbn [key value]. rewrite (IHd f Hf). reflexivity.
Qed.

(** X2: [Sort] is idempotent: sorting a sorted document, nested documents
    included, leaves it as it is. *)
Theorem Sort_idempotent (d : Document) :
  Document_Sort (Document_Sort d) = Document_Sort d.
Proof.
  unfold Document_Sort. cbn [fields]. f_equal.
  change (map (on_value Value_Sort) ?l) with (on_value Value_Sort <$> l).
  rewrite (SliceStable_on_value Value_Sort), SliceStable_key_less_idem.
  rewrite <- list_fmap_compose. apply list_fmap_ext. intros i f _.
  unfold compose, on_value. cbn [key value]. rewrite Value_Sort_idem. reflexivity.
Qed.

(** Visiting the values does not change which fields have a given key. *)
Lemma filter_key_on_value (m : Value -> Value) (k : string) (l : list field) :
  filter (fun fld => key fld = k) (on_value m <$> l)
  = on_value m <$> filter (fun fld => key fld = k) l.
Proof.
  induction l as [|f l IH]; [reflexivity|].
  cbn [fmap list_fmap]. rewrite !filter_cons. cbn [on_value key].
  destruct (decide (key f = k)); cbn [fmap list_fmap]; rewrite <- IH; reflexivity.
Qed.

Lemma Document_Sort_filter_key (d : Document) (k : string) :
  filter (fun fld => key fld = k) (fields (Document_Sort d))
  = on_value Value_Sort <$> filter (fun fld => key fld = k) (fields d).
Proof.
  unfold Document_Sort. cbn [fields].
  change (map (on_value Value_Sort) ?l) with (on_value Value_Sort <$> l).
  rewrite filter_key_on_value. f_equal.
  apply (SliceStable_stable key_less (fun fld => key fld = k)).
  intros x y <- Hy. unfold key_less. rewrite Hy.
  apply not_true_is_false. intros H. apply String_ltb_lt in H.
  apply (StrictOrder_Irreflexive _ H).
Qed.

(** X3: [Sort] rearranges and loses nothing: its fields are the fields of
    the document in another order, each with its value sorted; and the
    fields of any one key stand in the order they had before, so that
    the last write of a key is still the last. *)
Theorem Sort_is_stable_rearrangement (d : Document) :
  fields (Document_Sort d) ≡ₚ on_value Value_Sort <$> fields d
  /\ length (fields (Document_Sort d)) = length (fields d)
  /\ forall k,
      filter (fun fld => key fld = k) (fields (Document_Sort d))
      = on_value Value_Sort <$> filter (fun fld => key fld = k) (fields d).
Proof.
  split; [| split; [| apply Document_Sort_filter_key]];
    unfold Document_Sort; cbn [fields];
    change (map (on_value Value_Sort) ?l) with (on_value Value_Sort <$> l).
  - rewrite (SliceStable_Permutation key_less). reflexivity.
  - rewrite length_fmap, (SliceStable_Permutation key_less). reflexivity.
Qed.

(** ** Dedup *)




Lemma String_ltb_antisym (a b : string) :
  String.ltb a b = false -> String.ltb b a = false -> a = b.
Proof.
  intros Hab Hba.
  destruct (OrdersEx.String_as_OT.compare_spec a b) as [E | H | H].
  - exact E.
  - apply String_ltb_lt in H. congruence.
  - apply String_ltb_lt in H. congruence.
Qed.

Lemma mark_adjacent_elem_key (l : list field) (g : field) :
  g ∈ mark_adjacent l -> exists f0, f0 ∈ l /\ key g = key f0.
Proof.
  intros Hg. apply list_elem_of_lookup in Hg as [i Hi].
  pose proof (mark_adjacent_key l i) as Hk. rewrite Hi in Hk.
  destruct (l !! i) as [f0|] eqn:E0; [| discriminate].
  exists f0. split; [eapply list_elem_of_lookup_2, E0 |].
  cbn in Hk. congruence.
Qed.

(** In a sorted list, what the second loop of [Dedup] leaves unmarked has
    pairwise different keys. *)
Lemma mark_adjacent_sorted_NoDup (l : list field) :
  StronglySorted (fun a b => String.ltb (key b) (key a) = false) l ->
  NoDup (key <$> filter (fun fld => ~ omitted (value fld))
                   (on_value Value_Dedup <$> mark_adjacent l)).
Proof.
  induction 1 as [|a l Hl IH Ha]; [constructor|].
  destruct l as [|b tl].
  { cbn [mark_adjacent adjacent_pass fmap list_fmap]. rewrite filter_cons.
    destruct (decide _); cbn; repeat constructor; apply not_elem_of_nil. }
  change (mark_adjacent (a :: b :: tl))
    with ((if same_key a b then mark_field a else a) :: mark_adjacent (b :: tl)).
  cbn [fmap list_fmap]. rewrite filter_cons.
  destruct (decide _) as [Hkeep | _]; [| exact IH].
  cbn [fmap list_fmap]. constructor; [| exact IH].
  unfold same_key in *. destruct (String.eqb_spec (key a) (key b)) as [E | Hne].
  { destruct Hkeep. left. reflexivity. }
  cbn [on_value key]. intros Hin.
  apply list_elem_of_fmap in Hin as (f & Hkf & Hf).
  apply list_elem_of_filter in Hf as [_ Hf].
  apply list_elem_of_fmap in Hf as (g & -> & Hg).
  apply mark_adjacent_elem_key in Hg as (f0 & Hf0 & Hk0).
  cbn [on_value key] in Hkf. rewrite Hk0 in Hkf.
  apply Forall_cons in Ha as [Hab _].
  apply elem_of_cons in Hf0 as [-> | Hf0]; [congruence |].
  apply StronglySorted_inv in Hl as [_ Hb].
  rewrite Forall_forall in Hb. specialize (Hb f0 Hf0). cbv beta in Hb.
  rewrite <- Hkf in Hb. apply Hne, String_ltb_antisym; assumption.
Qed.

(** X5: when no key of the sorted document is a strictly shorter prefix
    of the key after it, the object that flat serialisation writes after
    [Sort] and [Dedup] announces no key twice, whatever the sink does and
    wherever the serialisation stops.  The condition is needed: for the
    keys "a", "a.b", "a.value" the first is renamed to "a.value", which
    is then announced twice. *)
Theorem Dedup_output_keys_unique :
  (forall (w : Visitor) (d : Document) (tr : Trace) (r : option error),
      no_collision (fields (Document_Sort d)) = true ->
      Document_Serialize w (Document_Dedup (Document_Sort d)) false = (tr, r) ->
      NoDup (keysOf tr))
  /\ (let d := mkDocument [mkField "a" (IntValue 1); mkField "a.b" (IntValue 2);
                          mkField "a.value" (IntValue 3)] in
      keysOf (fst (Document_Serialize okVisitor
                     (Document_Dedup (Document_Sort d)) false))
      = ["a.value"; "a.b"; "a.value"]).
Proof.
  split; [| reflexivity].
  intros w d tr r Hnc.
  unfold Document_Serialize, Document_iterJSON, Document_iterJSONFlat,
    iterJSONFlat_rec. cbn [call].
  destruct (iterJSONFlat_fields w (Value_iterJSON w) _ ([] ++ [OnObjectStart]))
    as [h1 r1] eqn:Ef.
  intros [= <- <-].
  destruct (iterJSONFlat_fields_keys w _ _ _ _ Ef)
    as (evs & done & rest & -> & Hd & Hk & _).
  rewrite !keysOf_app, Hk. cbn [keysOf omap app]. rewrite app_nil_r.
  rewrite Document_Dedup_fields, rename_adjacent_no_collision in Hd by exact Hnc.
  destruct (Document_Sort_sorted d) as (_ & _ & Hsorted & _).
  pose proof (mark_adjacent_sorted_NoDup _ Hsorted) as Hnd.
  rewrite Hd, filter_app, fmap_app in Hnd.
  apply NoDup_app in Hnd as [Hnd _]. exact Hnd.
Qed.

Lemma Dedup_output_keys_unique_witness :
  let d := mkDocument [mkField "k" (IntValue 1); mkField "b" (IntValue 0);
                       mkField "k" (IntValue 2); mkField "c" nilValue] in
  NoDup (keysOf (fst (Document_Serialize okVisitor
                        (Document_Dedup (Document_Sort d)) false))).
Proof.
  intros d.
  apply (proj1 Dedup_output_keys_unique okVisitor d _ None); reflexivity.
Defined.

(** ** The importer, continued *)

Lemma String_append_assoc (a b c : string) :
  ((a ++ b) ++ c)%string = (a ++ (b ++ c))%string.
Proof.
  induction a as [|x a IH]; [reflexivity|].
  change (String x ((a ++ b) ++ c) = String x (a ++ (b ++ c)))%string.
  f_equal. exact IH.
Qed.

Lemma appendAttributeFields_cons fields path kv (am : AttributeMap) :
  appendAttributeFields fields path (kv :: am)
  = appendAttributeFields (appendAttributeValue fields path (fst kv) (snd kv)) path am.
Proof. reflexivity. Qed.

(** Importing only appends: what it adds does not depend on the fields
    that are there. *)
Lemma appendAttributeValue_app attr :
  forall fields path key,
    appendAttributeValue fields path key attr
    = fields ++ appendAttributeValue [] path key attr.
Proof.
  induction attr as [|s|i|d|b|m IHm|a _] using AttributeValue_ind;
    intros fields path key; try reflexivity.
  - symmetry. apply app_nil_r.
  - rewrite !appendAttributeValue_MAP. generalize (flattenKey path key) as p.
    intros p. revert fields.
    induction IHm as [|kv m Hkv _ IH]; intros fields.
    + symmetry. apply app_nil_r.
    + rewrite !appendAttributeFields_cons, IH, Hkv.
      rewrite (IH (appendAttributeValue [] p (fst kv) (snd kv))).
      rewrite app_assoc. reflexivity.
Qed.

Lemma appendAttributeFields_app (am : AttributeMap) :
  forall fields path,
    appendAttributeFields fields path am
    = fields ++ appendAttributeFields [] path am.
Proof.
  induction am as [|kv am IH]; intros fields path.
  - symmetry. apply app_nil_r.
  - rewrite !appendAttributeFields_cons, IH, appendAttributeValue_app.
    rewrite (IH (appendAttributeValue [] path (fst kv) (snd kv))).
    rewrite app_assoc. reflexivity.
Qed.

Lemma appendAttributeValue_length attr :
  forall path key,
    length (appendAttributeValue [] path key attr) = leaves attr.
Proof.
  induction attr as [|s|i|d|b|m IHm|a _] using AttributeValue_ind;
    intros path key; try reflexivity.
  rewrite appendAttributeValue_MAP. generalize (flattenKey path key) as p.
  intros p. cbn [leaves].
  induction IHm as [|kv m Hkv _ IH]; [reflexivity|].
  rewrite appendAttributeFields_cons, appendAttributeFields_app, length_app.
  rewrite Hkv, IH. reflexivity.
Qed.

Lemma DocumentFromAttributesWithPath_fields (path : string) (am : AttributeMap) :
  fields (DocumentFromAttributesWithPath path am) = appendAttributeFields [] path am.
Proof.
  unfold DocumentFromAttributesWithPath. destruct am; reflexivity.
Qed.

(** X6: [AddAttributes] only appends: the fields that the document had
    stay in front, unchanged, followed by exactly the fields that
    importing the same attributes under the same path gives on their
    own; and these are as many as the attributes have leaves that are not
    null, counted through nested maps. *)
Theorem AddAttributes_appends (doc : Document) (key : string) (am : AttributeMap) :
  fields (Document_AddAttributes doc key am)
  = fields doc ++ fields (DocumentFromAttributesWithPath key am)
  /\ length (fields (DocumentFromAttributesWithPath key am)) = leaves_of am.
Proof.
  rewrite DocumentFromAttributesWithPath_fields. split.
  - unfold Document_AddAttributes. cbn [fields]. apply appendAttributeFields_app.
  - induction am as [|kv am IH]; [reflexivity|].
    rewrite appendAttributeFields_cons, appendAttributeFields_app, length_app.
    rewrite appendAttributeValue_length, IH. reflexivity.
Qed.


Lemma flattenKey_nonempty (path key : string) :
  path <> "" -> flattenKey path key = (path ++ "." ++ key)%string.
Proof. intros Hp. rewrite flattenKey_spec. case_decide; [contradiction | reflexivity]. Qed.

Lemma dotted_nonempty (root rest : string) : (root ++ "." ++ rest)%string <> "".
Proof. destruct root; discriminate. Qed.

Lemma appendAttributeValue_under attr :
  forall root fields path k,
    (exists rest, flattenKey path k = (root ++ "." ++ rest)%string) ->
    Forall (fun fld => exists rest, key fld = (root ++ "." ++ rest)%string) fields ->
    Forall (fun fld => exists rest, key fld = (root ++ "." ++ rest)%string)
      (appendAttributeValue fields path k attr).
Proof.
  induction attr as [|s|i|d|b|m IHm|a _] using AttributeValue_ind;
    intros root fields path k Hk Hf;
    try (apply Forall_app; split; [exact Hf |]; constructor; [exact Hk | constructor]).
  - exact Hf.
  - rewrite appendAttributeValue_MAP. destruct Hk as [rest Hk]. rewrite Hk.
    revert fields Hf. induction IHm as [|kv m Hkv _ IH]; intros fields Hf.
    + exact Hf.
    + rewrite appendAttributeFields_cons. apply IH, Hkv; [| exact Hf].
      exists (rest ++ "." ++ fst kv)%string.
      rewrite flattenKey_nonempty by apply dotted_nonempty.
      rewrite !String_append_assoc. reflexivity.
Qed.

(** X7: every field that an import under a non-empty path adds has a key
    that starts with that path and a dot, at whatever depth of nested
    maps its attribute was found.  With an empty path, a map stored under
    the empty key is not a level of its own: its children are imported
    as if they stood in its place. *)
Theorem import_keys_under_path :
  (forall (path : string) (am : AttributeMap),
      path <> "" ->
      Forall (fun fld => exists rest, key fld = (path ++ "." ++ rest)%string)
        (fields (DocumentFromAttributesWithPath path am)))
  /\ (forall (fields : list field) (m : AttributeMap),
      appendAttributeValue fields "" "" (AttributeValueMAP m)
      = appendAttributeFields fields "" m).
Proof.
  split; [| intros; apply appendAttributeValue_MAP].
  intros path am Hp. rewrite DocumentFromAttributesWithPath_fields.
  assert (Hnil : Forall (fun fld : field =>
                           exists rest, key fld = (path ++ "." ++ rest)%string) [])
    by constructor.
  revert Hnil. generalize (@nil field) as fields.
  induction am as [|kv am IH]; intros fields Hf; [exact Hf|].
  rewrite appendAttributeFields_cons. apply IH, appendAttributeValue_under; [| exact Hf].
  exists (fst kv). apply flattenKey_nonempty, Hp.
Qed.

Lemma import_keys_under_path_witness :
  Forall (fun fld => exists rest, key fld = ("Attributes" ++ "." ++ rest)%string)
    (fields (DocumentFromAttributesWithPath "Attributes"
       [("a", AttributeValueMAP [("b", AttributeValueINT 1)]);
        ("c", AttributeValueBOOL true)])).
Proof.
  apply (proj1 import_keys_under_path "Attributes"). discriminate.
Defined.

Lemma Value_mentions_leaf (k0 : Kind) (s : string) (i : Z) (d : float64) (b : bool) :
  k0 = KindIgnore \/ k0 = KindTimestamp ->
  Value_mentions k0 (StringValue s) = false
  /\ Value_mentions k0 (IntValue i) = false
  /\ Value_mentions k0 (DoubleValue d) = false
  /\ Value_mentions k0 (BoolValue b) = false
  /\ Value_mentions k0 nilValue = false.
Proof. intros [-> | ->]; repeat split; reflexivity. Qed.

(** What an import makes holds no value of kind Ignore or Timestamp, and
    what it appends to such fields leaves them such. *)
Lemma ValueFromAttribute_mentions (k0 : Kind) (attr : AttributeValue) :
  k0 = KindIgnore \/ k0 = KindTimestamp ->
  Value_mentions k0 (ValueFromAttribute attr) = false
  /\ forall fields path key,
      Forall (fun fld => Value_mentions k0 (value fld) = false) fields ->
      Forall (fun fld => Value_mentions k0 (value fld) = false)
        (appendAttributeValue fields path key attr).
Proof.
  intros Hk0.
  assert (Hleaf : forall attr' fields path key,
             Value_mentions k0 (ValueFromAttribute attr') = false ->
             Forall (fun fld => Value_mentions k0 (value fld) = false) fields ->
             Forall (fun fld : field => Value_mentions k0 (value fld) = false)
               (fields ++ [mkField (flattenKey path key) (ValueFromAttribute attr')])).
  { intros attr' fields path key Hv Hf. apply Forall_app. split; [exact Hf|].
    constructor; [exact Hv | constructor]. }
  induction attr as [|s|i|d|b|m IHm|a IHa] using AttributeValue_ind.
  - split; [apply (Value_mentions_leaf k0 "" 0 (S754_zero false) false Hk0) |].
    intros fields path key Hf. exact Hf.
  - assert (Hv := proj1 (Value_mentions_leaf k0 s 0 (S754_zero false) false Hk0)).
    split; [exact Hv | intros; apply Hleaf; assumption].
  - assert (Hv := proj1 (proj2 (Value_mentions_leaf k0 "" i (S754_zero false) false Hk0))).
    split; [exact Hv | intros; apply Hleaf; assumption].
  - assert (Hv := proj1 (proj2 (proj2 (Value_mentions_leaf k0 "" 0 d false Hk0)))).
    split; [exact Hv | intros; apply Hleaf; assumption].
  - assert (Hv := proj1 (proj2 (proj2 (proj2
                  (Value_mentions_leaf k0 "" 0 (S754_zero false) b Hk0))))).
    split; [exact Hv | intros; apply Hleaf; assumption].
  - assert (Hfold : forall p fields,
               Forall (fun fld => Value_mentions k0 (value fld) = false) fields ->
               Forall (fun fld : field => Value_mentions k0 (value fld) = false)
                 (appendAttributeFields fields p m)).
    { intros p. induction IHm as [|kv m Hkv _ IH]; intros fields Hf; [exact Hf|].
      rewrite appendAttributeFields_cons. apply IH, (proj2 Hkv), Hf. }
    split.
    + rewrite ValueFromAttribute_MAP. unfold DocumentFromAttributes, ObjectValue.
      cbn [Value_mentions with_doc with_kind zeroValue kind primitive dbl str arr doc ts].
      rewrite DocumentFromAttributesWithPath_fields.
      rewrite orb_false_iff. split; [destruct Hk0 as [-> | ->]; reflexivity |].
      apply not_true_is_false. intros Hex. apply existsb_exists in Hex as (f & Hf & Hm).
      specialize (Hfold "" [] ltac:(constructor)). rewrite Forall_forall in Hfold.
      apply list_elem_of_In in Hf. rewrite (Hfold f Hf) in Hm. discriminate.
    + intros fields path key Hf. rewrite appendAttributeValue_MAP. apply Hfold, Hf.
  - assert (Hv : Value_mentions k0 (ValueFromAttribute (AttributeValueARRAY a)) = false).
    { rewrite ValueFromAttribute_ARRAY. unfold arrFromAttributes, ArrValue.
      cbn [Value_mentions with_arr with_kind zeroValue kind primitive dbl str arr doc ts].
      rewrite orb_false_iff. split; [destruct Hk0 as [-> | ->]; reflexivity |].
      destruct (length a =? 0)%nat; [reflexivity|].
      apply not_true_is_false. intros Hex. apply existsb_exists in Hex as (v & Hv & Hm).
      apply in_map_iff in Hv as (x & <- & Hx). rewrite Forall_forall in IHa.
      apply list_elem_of_In in Hx. rewrite (proj1 (IHa x Hx)) in Hm. discriminate. }
    split; [exact Hv | intros; apply Hleaf; assumption].
Qed.

(** X8: the fields of an imported document are of kind Bool, Int, Double,
    String or Array only: never Nil, since null attributes are dropped,
    never Object, since maps are flattened.  And nowhere inside them, at
    any depth of arrays and of the objects in arrays, is there a value of
    kind Ignore or of kind Timestamp: these come from [Dedup] and from
    [AddTimestamp] only. *)
Theorem import_kinds (path : string) (am : AttributeMap) :
  Forall (fun fld =>
            kind (value fld) ∈ [KindBool; KindInt; KindDouble; KindString; KindArr]
            /\ Value_mentions KindIgnore (value fld) = false
            /\ Value_mentions KindTimestamp (value fld) = false)
    (fields (DocumentFromAttributesWithPath path am)).
Proof.
  rewrite DocumentFromAttributesWithPath_fields.
  assert (Hstep : forall attr fields p k,
             Forall (fun fld : field =>
                       kind (value fld) ∈ [KindBool; KindInt; KindDouble; KindString; KindArr])
               fields ->
             Forall (fun fld : field =>
                       kind (value fld) ∈ [KindBool; KindInt; KindDouble; KindString; KindArr])
               (appendAttributeValue fields p k attr)).
  { induction attr as [|s|i|d|b|m IHm|a _] using AttributeValue_ind;
      intros fields p k Hf;
      try (apply Forall_app; split; [exact Hf |]; constructor; [| constructor];
           cbn [value]; destruct b || idtac;
           repeat first [apply list_elem_of_here | apply list_elem_of_further]).
    - exact Hf.
    - rewrite appendAttributeValue_MAP. generalize (flattenKey p k) as q. intros q.
      revert fields Hf. induction IHm as [|kv m Hkv _ IH]; intros fields Hf; [exact Hf|].
      rewrite appendAttributeFields_cons. apply IH, Hkv, Hf. }
  assert (Hall : forall (P : field -> Prop),
             (forall attr fields p k, Forall P fields ->
                                      Forall P (appendAttributeValue fields p k attr)) ->
             Forall P (appendAttributeFields [] path am)).
  { intros P HP. assert (Hnil : Forall P []) by constructor.
    revert Hnil. generalize (@nil field) as fields.
    induction am as [|kv am IH]; intros fields Hf; [exact Hf|].
    rewrite appendAttributeFields_cons. apply IH, HP, Hf. }
  pose proof (Hall _ Hstep) as H1.
  pose proof (Hall _ (fun attr => proj2 (ValueFromAttribute_mentions KindIgnore attr
                                           (or_introl eq_refl)))) as H2.
  pose proof (Hall _ (fun attr => proj2 (ValueFromAttribute_mentions KindTimestamp attr
                                           (or_intror eq_refl)))) as H3.
  rewrite Forall_forall in *. intros f Hf. auto.
Qed.

(** ** The serialiser, continued *)

Section ScalarSink.

Variable w : Visitor.

(** The sink takes every scalar; what it answers to the other calls is
    left open. *)
Hypothesis w_scalar : forall h e, is_scalar e = true -> w h e = None.

Lemma Value_iterJSON_dedot_result (v : Value) :
  forall h,
    snd (Value_iterJSON w v true h)
    = if Value_dedot_ok v then None else Some (errorsNew "TODO").
Proof.
  induction v as [k p d s a dc t IHa _] using Value_ind. intros h.
  destruct k; cbn [Value_iterJSON Value_dedot_ok call snd];
    try (apply w_scalar; reflexivity); try reflexivity.
  - destruct (IsNaN d || IsInf d 0); cbn [snd]; apply w_scalar; reflexivity.
  - (* KindArr *)
    assert (Harr : forall h0,
               snd (iterJSON_arr (Value_iterJSON w) a true h0)
               = if forallb Value_dedot_ok a then None else Some (errorsNew "TODO")).
    { induction IHa as [|x a Hx _ IH]; intros h0; [reflexivity|].
      cbn [iterJSON_arr forallb]. specialize (Hx h0).
      destruct (Value_iterJSON w x true h0) as [hx [ex|]]; cbn [snd] in Hx;
        destruct (Value_dedot_ok x); try discriminate; cbn [andb].
      - exact Hx.
      - apply IH. }
    specialize (Harr (h ++ [OnArrayStart])).
    destruct (iterJSON_arr (Value_iterJSON w) a true (h ++ [OnArrayStart]))
      as [h1 [e1|]]; cbn [snd] in *; [exact Harr |].
    exact Harr.
  - (* KindObject *)
    destruct (length (fields dc) =? 0)%nat; cbn [call snd];
      [apply w_scalar; reflexivity | reflexivity].
Qed.

Lemma iterJSONFlat_fields_result (flds : list field) :
  forall h,
    snd (iterJSONFlat_fields w (Value_iterJSON w) flds h)
    = if forallb (fun fld => bool_decide (omitted (value fld))
                             || Value_dedot_ok (value fld)) flds
      then None else Some (errorsNew "TODO").
Proof.
  induction flds as [|fld flds IH]; intros h; [reflexivity|].
  cbn [iterJSONFlat_fields forallb call].
  destruct (isEmptyField fld) eqn:Eempty.
  - apply isEmptyField_omitted in Eempty.
    rewrite (bool_decide_eq_true_2 _ Eempty). cbn [orb andb]. apply IH.
  - assert (Hkeep : ~ omitted (value fld)).
    { rewrite <- isEmptyField_omitted, Eempty. discriminate. }
    rewrite (bool_decide_eq_false_2 _ Hkeep). cbn [orb].
    pose proof (Value_iterJSON_dedot_result (value fld) (h ++ [OnKey (key fld)])) as Hv.
    destruct (Value_iterJSON w (value fld) true (h ++ [OnKey (key fld)]))
      as [h1 [e1|]]; cbn [snd] in Hv;
      destruct (Value_dedot_ok (value fld)); try discriminate; cbn [andb].
    + exact Hv.
    + apply IH.
Qed.

End ScalarSink.

(** X9: when flat serialisation succeeds.  For a sink that takes every
    scalar, whatever it answers to keys and to the starts and ends of
    objects and arrays, [Serialize] in flat mode returns no error exactly
    when every field that is not omitted holds no object with fields,
    also not inside its arrays; otherwise it returns the error "TODO".
    With [dedot = true] it returns "TODO" for every document and every
    sink, and calls nothing. *)
Theorem Serialize_result (w : Visitor) (d : Document) :
  ((forall h e, is_scalar e = true -> w h e = None) ->
   snd (Document_Serialize w d false)
   = if Document_flat_ok d then None else Some (errorsNew "TODO"))
  /\ Document_Serialize w d true = ([], Some (errorsNew "TODO")).
Proof.
  split; [| reflexivity]. intros Hw.
  unfold Document_Serialize, Document_iterJSON, Document_iterJSONFlat,
    iterJSONFlat_rec, Document_flat_ok. cbn [call].
  pose proof (iterJSONFlat_fields_result w Hw (fields d) ([] ++ [OnObjectStart])) as H.
  destruct (iterJSONFlat_fields w (Value_iterJSON w) (fields d) ([] ++ [OnObjectStart]))
    as [h1 r1]. exact H.
Qed.

Lemma Serialize_result_witness :
  let w := failOn (fun e => negb (is_scalar e)) 3 in
  let d := mkDocument [mkField "a" (ArrValue [IntValue 1; ObjectValue (mkDocument [])]);
                       mkField "b" nilValue] in
  snd (Document_Serialize w d false) = None.
Proof.
  intros w d. apply (proj1 (Serialize_result w d)).
  intros h e He. unfold w, failOn. rewrite He. reflexivity.
Defined.

Section ErrorsAndShape.

Variable w : Visitor.

Lemma call_scalar_error (ev : Event) (h h' : Trace) (e : error) :
  is_scalar ev = true -> call w ev h = (h', Some e) -> from_scalar_or_TODO w e.
Proof. intros Hs [= _ He]. right. exists h, ev. auto. Qed.

Lemma iterJSONFlat_fields_error_origin (flds : list field) :
  Forall (fun fld => forall dedot h h' e,
              Value_iterJSON w (value fld) dedot h = (h', Some e) ->
              from_scalar_or_TODO w e) flds ->
  forall h h' e,
    iterJSONFlat_fields w (Value_iterJSON w) flds h = (h', Some e) ->
    from_scalar_or_TODO w e.
Proof.
  intros HF h h' e H.
  destruct (iterJSONFlat_fields_error w _ _ _ _ H)
    as (pre & fld & post & h0 & -> & _ & _ & Hv).
  apply Forall_app in HF as [_ HF]. apply Forall_cons in HF as [Hfld _].
  exact (Hfld _ _ _ _ Hv).
Qed.

Lemma Value_iterJSON_error_origin (v : Value) :
  forall dedot h h' e,
    Value_iterJSON w v dedot h = (h', Some e) -> from_scalar_or_TODO w e.
Proof.
  induction v as [k p d s a dc t IHa IHd] using Value_ind. intros dedot h h' e.
  destruct k; cbn [Value_iterJSON];
    try (apply call_scalar_error; reflexivity).
  - destruct (IsNaN d || IsInf d 0); apply call_scalar_error; reflexivity.
  - (* KindArr *)
    cbn [call].
    destruct (iterJSON_arr (Value_iterJSON w) a dedot (h ++ [OnArrayStart]))
      as [h1 [e1|]] eqn:Ea; [| discriminate].
    intros [= _ <-].
    destruct (iterJSON_arr_error w _ _ _ _ _ Ea) as (pre & x & post & h0 & -> & _ & Hx).
    apply Forall_app in IHa as [_ IHa]. apply Forall_cons in IHa as [Hx' _].
    exact (Hx' _ _ _ _ Hx).
  - (* KindObject *)
    destruct (length (fields dc) =? 0)%nat; [apply call_scalar_error; reflexivity |].
    destruct dedot; cbn [iterJSON_rec iterJSONDedot].
    + intros [= _ <-]. left. reflexivity.
    + unfold iterJSONFlat_rec. cbn [call].
      destruct (iterJSONFlat_fields w (Value_iterJSON w) (fields dc)
                  (h ++ [OnObjectStart])) as [h1 r1] eqn:Ef.
      intros [= _ ->]. apply (iterJSONFlat_fields_error_origin _ IHd _ _ _ Ef).
  - discriminate.
Qed.

(** The calls of a successful serialisation of a value under
    [dedot = true]: none for a value of kind Ignore, otherwise those of
    one JSON value. *)
Lemma Value_iterJSON_shape (v : Value) :
  forall h h',
    Value_iterJSON w v true h = (h', None) ->
    exists evs, h' = h ++ evs
                /\ if bool_decide (kind v = KindIgnore) then evs = []
                   else json_value evs.
Proof.
  induction v as [k p d s a dc t IHa _] using Value_ind. intros h h'.
  destruct k; cbn [Value_iterJSON call kind];
    try (intros [= <- _]; eexists; split; [reflexivity | constructor]).
  - destruct (IsNaN d || IsInf d 0);
      intros [= <- _]; eexists; (split; [reflexivity | constructor]).
  - (* KindArr *)
    assert (Harr : forall h0 h1,
               iterJSON_arr (Value_iterJSON w) a true h0 = (h1, None) ->
               exists evs, h1 = h0 ++ evs /\ json_values evs).
    { induction IHa as [|x a Hx _ IH]; intros h0 h1; cbn [iterJSON_arr].
      - intros [= <-]. exists []. rewrite app_nil_r. split; constructor.
      - destruct (Value_iterJSON w x true h0) as [hx [ex|]] eqn:Ex; [discriminate|].
        destruct (Hx _ _ Ex) as (evx & -> & Hshape). intros Hrest.
        destruct (IH _ _ Hrest) as (evr & -> & Hr).
        exists (evx ++ evr). rewrite app_assoc. split; [reflexivity|].
        case_bool_decide; [subst evx; exact Hr | constructor; assumption]. }
    destruct (iterJSON_arr (Value_iterJSON w) a true (h ++ [OnArrayStart]))
      as [h1 [e1|]] eqn:Ea; [discriminate|].
    destruct (Harr _ _ Ea) as (evs & -> & Hv). intros [= <-].
    exists (OnArrayStart :: evs ++ [OnArrayFinished]).
    rewrite <- !app_assoc. split; [reflexivity | constructor; exact Hv].
  - (* KindObject *)
    destruct (length (fields dc) =? 0)%nat; cbn [call iterJSON_rec iterJSONDedot];
      [| discriminate].
    intros [= <- _]. eexists. split; [reflexivity | constructor].
  - intros [= <-]. exists []. rewrite app_nil_r. split; reflexivity.
Qed.

Lemma iterJSONFlat_fields_shape (flds : list field) :
  forall h h',
    iterJSONFlat_fields w (Value_iterJSON w) flds h = (h', None) ->
    exists evs, h' = h ++ evs /\ json_members evs.
Proof.
  induction flds as [|fld flds IH]; intros h h'; cbn [iterJSONFlat_fields call].
  - intros [= <-]. exists []. rewrite app_nil_r. split; constructor.
  - destruct (isEmptyField fld) eqn:Eempty; [apply IH |].
    destruct (Value_iterJSON w (value fld) true (h ++ [OnKey (key fld)]))
      as [h1 [e1|]] eqn:Ev; [discriminate|].
    destruct (Value_iterJSON_shape _ _ _ Ev) as (evv & -> & Hshape).
    intros Hrest. destruct (IH _ _ Hrest) as (evr & -> & Hr).
    exists (OnKey (key fld) :: evv ++ evr). rewrite <- !app_assoc.
    split; [reflexivity|]. case_bool_decide as Hk.
    + exfalso. assert (Ho : omitted (value fld)) by (left; exact Hk).
      apply isEmptyField_omitted in Ho. congruence.
    + constructor; assumption.
Qed.

End ErrorsAndShape.

(** X10: an error that [Serialize] returns is the error "TODO" of the
    missing dedot mode, or an error that the sink reported for a scalar
    (null, boolean, number or string).  What the sink reports for a key or
    for the start or the end of an object or an array is dropped and
    never returned. *)
Theorem Serialize_error_origin (w : Visitor) (d : Document) (dedot : bool)
    (tr : Trace) (e : error) :
  Document_Serialize w d dedot = (tr, Some e) ->
  e = errorsNew "TODO"
  \/ exists h ev, is_scalar ev = true /\ w h ev = Some e.
Proof.
  unfold Document_Serialize, Document_iterJSON, Document_iterJSONFlat, iterJSONFlat_rec.
  destruct dedot; cbn [iterJSONDedot call].
  - intros [= _ <-]. left. reflexivity.
  - destruct (iterJSONFlat_fields w (Value_iterJSON w) (fields d) ([] ++ [OnObjectStart]))
      as [h1 r1] eqn:Ef.
    intros [= _ ->].
    apply (iterJSONFlat_fields_error_origin w (fields d)) in Ef; [exact Ef |].
    apply Forall_forall. intros fld _. apply Value_iterJSON_error_origin.
Qed.

Lemma Serialize_error_origin_witness :
  let w := failOn (fun e => match e with OnString _ => true | _ => false end) 5 in
  let d := mkDocument [mkField "a" (IntValue 1); mkField "s" (StringValue "x")] in
  sinkError 5 = errorsNew "TODO"
  \/ exists h ev, is_scalar ev = true /\ w h ev = Some (sinkError 5).
Proof.
  intros w d.
  apply (Serialize_error_origin w d false
           [OnObjectStart; OnKey "a"; OnInt64 1; OnKey "s"; OnString "x";
            OnObjectFinished]).
  reflexivity.
Defined.

(** X11: when [Serialize] in flat mode returns no error, the calls it
    made on the sink are those of one JSON object: they start with the
    start of the object and end with its end, every key is followed by
    exactly one value, and every array that is started is ended. *)
Theorem Serialize_calls_one_object (w : Visitor) (d : Document) (tr : Trace) :
  Document_Serialize w d false = (tr, None) ->
  json_value tr
  /\ exists evs, tr = OnObjectStart :: evs ++ [OnObjectFinished] /\ json_members evs.
Proof.
  unfold Document_Serialize, Document_iterJSON, Document_iterJSONFlat, iterJSONFlat_rec.
  cbn [call].
  destruct (iterJSONFlat_fields w (Value_iterJSON w) (fields d) ([] ++ [OnObjectStart]))
    as [h1 r1] eqn:Ef.
  intros [= <- ->].
  destruct (iterJSONFlat_fields_shape w _ _ _ Ef) as (evs & -> & Hm).
  split; [constructor; exact Hm |]. exists evs. split; [reflexivity | exact Hm].
Qed.

Lemma Serialize_calls_one_object_witness :
  json_value [OnObjectStart; OnKey "a"; OnArrayStart; OnInt64 1; OnNil;
              OnArrayFinished; OnKey "b"; OnBool true; OnObjectFinished].
Proof.
  apply (Serialize_calls_one_object okVisitor
           (mkDocument [mkField "a" (ArrValue [IntValue 1; ignoreValue; nilValue]);
                        mkField "c" ignoreValue; mkField "b" (BoolValue true)])).
  reflexivity.
Defined.

(** ** From attributes to the sink *)

Lemma Value_iterJSON_scalar (attr : AttributeValue) (e : Event) (dedot : bool)
    (h : Trace) :
  plain_attr attr = true -> scalarEvent attr = Some e ->
  Value_iterJSON okVisitor (ValueFromAttribute attr) dedot h = (h ++ [e], None)
  /\ isEmptyField (mkField "" (ValueFromAttribute attr)) = false.
Proof.
  destruct attr as [|s|i|d|b|m|a]; try discriminate; intros Hp [= <-].
  - split; reflexivity.
  - apply andb_true_iff in Hp as [Hlo Hhi].
    apply Z.leb_le in Hlo. apply Z.ltb_lt in Hhi.
    split; [| reflexivity].
    change (ValueFromAttribute (AttributeValueINT i)) with (IntValue i).
    rewrite Value_iterJSON_Int, int64_uint64 by lia. reflexivity.
  - split; [| reflexivity].
    change (Value_iterJSON okVisitor (ValueFromAttribute (AttributeValueDOUBLE d)) dedot h)
      with (if IsNaN d || IsInf d 0 then call okVisitor OnNil h
            else call okVisitor (OnFloat64 d) h).
    destruct (is_finite d) eqn:Ef.
    + rewrite (IsNaN_finite d Ef), (IsInf_finite d Hp Ef). reflexivity.
    + rewrite (IsNaN_or_IsInf_nonfinite d Ef). reflexivity.
  - split; [| reflexivity]. destruct b; reflexivity.
Qed.

(** X12: a record of scalars, from import to sink.  When the attributes
    are nulls, strings, booleans, integers and doubles, importing them
    and serialising the document in flat mode succeeds and calls, between
    the start and the end of the object, for each attribute in its order
    its key and its value: the integer and the string as they are, a
    double that is NaN or infinite as null; a null attribute gives no
    call at all. *)
Theorem scalar_record_end_to_end (am : AttributeMap) :
  forallb (fun kv => plain_attr (snd kv)) am = true ->
  Document_Serialize okVisitor (DocumentFromAttributes am) false
  = (OnObjectStart :: concat (pairEvents <$> am) ++ [OnObjectFinished], None).
Proof.
  intros Hp.
  unfold Document_Serialize, Document_iterJSON, Document_iterJSONFlat,
    iterJSONFlat_rec, DocumentFromAttributes. cbn [call].
  rewrite DocumentFromAttributesWithPath_fields.
  assert (H : forall h,
             iterJSONFlat_fields okVisitor (Value_iterJSON okVisitor)
               (appendAttributeFields [] "" am) h
             = (h ++ concat (pairEvents <$> am), None)).
  { induction am as [|[k v] am IH]; intros h.
    - cbn. rewrite app_nil_r. reflexivity.
    - cbn [forallb snd] in Hp. apply andb_true_iff in Hp as [Hv Hrest].
      rewrite appendAttributeFields_cons, appendAttributeFields_app.
      cbn [fmap list_fmap concat fst snd]. unfold pairEvents at 1. cbn [fst snd].
      destruct (scalarEvent v) as [e|] eqn:Ee.
      + destruct (Value_iterJSON_scalar v e true (h ++ [OnKey k]) Hv Ee) as [Hev Hne].
        assert (Ea : appendAttributeValue [] "" k v = [mkField k (ValueFromAttribute v)])
          by (destruct v; try discriminate; reflexivity).
        rewrite Ea. cbn [app iterJSONFlat_fields call key value].
        change (isEmptyField (mkField k (ValueFromAttribute v)))
          with (isEmptyField (mkField "" (ValueFromAttribute v))).
        rewrite Hne, Hev, (IH Hrest), <- !app_assoc. reflexivity.
      + assert (Ea : appendAttributeValue [] "" k v = [])
          by (destruct v; try discriminate; reflexivity).
        rewrite Ea. cbn [app]. apply (IH Hrest). }
  rewrite H. rewrite <- !app_assoc. reflexivity.
Qed.

Lemma scalar_record_end_to_end_witness :
  Document_Serialize okVisitor
    (DocumentFromAttributes
       [("n", AttributeValueINT (-7)); ("z", AttributeValueNULL);
        ("d", AttributeValueDOUBLE S754_nan); ("s", AttributeValueSTRING "")]) false
  = ([OnObjectStart; OnKey "n"; OnInt64 (-7); OnKey "d"; OnNil;
      OnKey "s"; OnString ""; OnObjectFinished], None).
Proof.
  apply (scalar_record_end_to_end
           [("n", AttributeValueINT (-7)); ("z", AttributeValueNULL);
            ("d", AttributeValueDOUBLE S754_nan); ("s", AttributeValueSTRING "")]).
  reflexivity.
Defined.

(** ** The last write wins *)




